(** * sigslot.hpp: connection bookkeeping and dispatch

    A shallow embedding of [sigslot::has_slots], [sigslot::_signal_bases],
    [sigslot::_connections] and [sigslot::signals].

    - Objects live in a store keyed by their address.  A [has_slots] object
      is its [m_senders] set, a signal object is its [m_connected_slots]
      list.  A pointer to an object that is not in the store is dangling;
      calling a member through it is undefined behaviour ([UB]).
    - A connection is made by [new] and owned by the one list node that
      points to it, so node and connection share one identity, [conn_id],
      taken from a counter that never hands out an address twice.  Erasing a
      node drops the connection with it; [delete] has no other effect here.
    - A list iterator names a node.  It is usable while that node is in the
      list; [end()] is always usable.
    - Loops that can run forever ([slot_duplicate], [emit]) take fuel and
      answer [OutOfFuel] when it is used up.
    - The callables are code of the user: [emit] takes them as a function
      [body] from member function, receiver and arguments to an action on the
      store.
    - [StaticGuard<> guard();] declares a function and locks nothing, so the
      guards do not appear. *)

From stdpp Require Import gmap list.

(** ** Results of operations *)

Inductive result (A : Type) : Type :=
| Ok (a : A)
| UB
| OutOfFuel.
Arguments Ok {A} a.
Arguments UB {A}.
Arguments OutOfFuel {A}.

#[global] Instance result_bind : MBind result := λ A B f m,
  match m with
  | Ok a => f a
  | UB => UB
  | OutOfFuel => OutOfFuel
  end.

(** ** Connections

    [conn_id] is the identity of the heap object made by [new]; the list node
    that stores the pointer is identified with it, since a node holds the only
    pointer to its connection. *)

Record connection : Type := Conn {
  conn_id : nat;
  m_pobject : nat;
  m_pmemfun : nat
}.

#[global] Instance connection_eq_dec : EqDecision connection.
Proof. solve_decision. Defined.

Definition getdest (c : connection) : nat := m_pobject c.

(** [clone()]: a copy of this connection, allocated at address [id]. *)
Definition clone (c : connection) (id : nat) : connection :=
  Conn id (m_pobject c) (m_pmemfun c).

(** [duplicate(pnewdest)]: same member function, new destination,
    allocated at address [id]. *)
Definition duplicate (c : connection) (pnewdest : nat) (id : nat) : connection :=
  Conn id pnewdest (m_pmemfun c).

(** ** The store *)

Record state : Type := State {
  m_connected_slots : gmap nat (list connection);
  m_senders : gmap nat (gset nat);
  next_conn : nat
}.

Definition set_slots (e : nat) (l : list connection) (st : state) : state :=
  State (<[e := l]> (m_connected_slots st)) (m_senders st) (next_conn st).

Definition set_senders (r : nat) (s : gset nat) (st : state) : state :=
  State (m_connected_slots st) (<[r := s]> (m_senders st)) (next_conn st).

Definition empty_state : state := State ∅ ∅ 0.

(** Default constructors [has_slots()] and [signals()] at a given address. *)
Definition has_slots_new (this : nat) (st : state) : state :=
  set_senders this ∅ st.

Definition signals_new (this : nat) (st : state) : state :=
  set_slots this [] st.

(** ** has_slots::signal_connect, has_slots::signal_disconnect

    [m_senders.insert(sender)] and [m_senders.erase(sender)]. *)

Definition signal_connect (this sender : nat) (st : state) : result state :=
  match m_senders st !! this with
  | None => UB
  | Some s => Ok (set_senders this ({[sender]} ∪ s) st)
  end.

Definition signal_disconnect (this sender : nat) (st : state) : result state :=
  match m_senders st !! this with
  | None => UB
  | Some s => Ok (set_senders this (s ∖ {[sender]}) st)
  end.

(** ** signals::connect

    [new], [push_back], then [pclass->signal_connect(this)]. *)

Definition connect (this pclass pmemfun : nat) (st : state) : result state :=
  match m_connected_slots st !! this with
  | None => UB
  | Some l =>
      let conn := Conn (next_conn st) pclass pmemfun in
      signal_connect pclass this
        (State (<[this := l ++ [conn]]> (m_connected_slots st))
               (m_senders st) (S (next_conn st)))
  end.

(** ** _signal_bases::disconnect

    The loop stops at the first connection whose destination is [pclass],
    erases it, calls [pclass->signal_disconnect(this)] and returns;
    [disconnect_loop] is [None] when the walk reaches [itEnd], and then
    nothing is done. *)

Fixpoint disconnect_loop (pclass : nat) (l : list connection)
  : option (list connection) :=
  match l with
  | [] => None
  | c :: l' =>
      if decide (getdest c = pclass) then Some l'
      else (c ::.) <$> disconnect_loop pclass l'
  end.

Definition disconnect (this pclass : nat) (st : state) : result state :=
  match m_connected_slots st !! this with
  | None => UB
  | Some l =>
      match disconnect_loop pclass l with
      | None => Ok st
      | Some l' => signal_disconnect pclass this (set_slots this l' st)
      end
  end.

(** ** _signal_bases::disconnect_all and the destructor

    One [signal_disconnect] per connection, then the list is cleared. *)

Fixpoint disconnect_all_loop (this : nat) (l : list connection) (st : state)
  : result state :=
  match l with
  | [] => Ok st
  | c :: l' =>
      st' ← signal_disconnect (getdest c) this st;
      disconnect_all_loop this l' st'
  end.

Definition disconnect_all (this : nat) (st : state) : result state :=
  match m_connected_slots st !! this with
  | None => UB
  | Some l =>
      st' ← disconnect_all_loop this l st;
      Ok (set_slots this [] st')
  end.

Definition signal_destroy (this : nat) (st : state) : result state :=
  st' ← disconnect_all this st;
  Ok (State (delete this (m_connected_slots st')) (m_senders st') (next_conn st')).

(** ** _signal_bases::slot_disconnect

    Erases every node whose destination is [pslot]; the next position is
    taken before the erase, so the walk visits every node once.  No call goes
    to the receiver. *)

Fixpoint slot_disconnect_loop (pslot : nat) (l : list connection)
  : list connection :=
  match l with
  | [] => []
  | c :: l' =>
      if decide (getdest c = pslot) then slot_disconnect_loop pslot l'
      else c :: slot_disconnect_loop pslot l'
  end.

Definition slot_disconnect (this pslot : nat) (st : state) : result state :=
  match m_connected_slots st !! this with
  | None => UB
  | Some l => Ok (set_slots this (slot_disconnect_loop pslot l) st)
  end.

(** ** has_slots::disconnect_all and the destructor

    [slot_disconnect(this)] on every signal of [m_senders], then the set is
    cleared.  The set is walked in the order of [elements]; the calls are on
    distinct signals and do not depend on one another. *)

Fixpoint has_slots_disconnect_loop (this : nat) (senders : list nat) (st : state)
  : result state :=
  match senders with
  | [] => Ok st
  | s :: rest =>
      st' ← slot_disconnect s this st;
      has_slots_disconnect_loop this rest st'
  end.

Definition has_slots_disconnect_all (this : nat) (st : state) : result state :=
  match m_senders st !! this with
  | None => UB
  | Some s =>
      st' ← has_slots_disconnect_loop this (elements s) st;
      Ok (set_senders this ∅ st')
  end.

Definition has_slots_destroy (this : nat) (st : state) : result state :=
  st' ← has_slots_disconnect_all this st;
  Ok (State (m_connected_slots st') (delete this (m_senders st')) (next_conn st')).

(** ** List iterators

    An iterator of [std::list] names a node or is [end()].  It stays usable
    while its node is in the list; using it after the node was erased is
    undefined. *)

Inductive iterator : Type :=
| it_node (id : nat)
| it_end.

Definition begin (l : list connection) : iterator :=
  match l with
  | [] => it_end
  | c :: _ => it_node (conn_id c)
  end.

(** The connection stored at node [id] and the iterator after it ([++it]). *)
Fixpoint node_at (id : nat) (l : list connection)
  : option (connection * iterator) :=
  match l with
  | [] => None
  | c :: l' =>
      if decide (conn_id c = id) then Some (c, begin l') else node_at id l'
  end.

(** ** _signal_bases::slot_duplicate

    [push_back] happens before [++it], and [itEnd] is the list's sentinel, so
    the walk also reaches the connections it has appended. *)

Fixpoint slot_duplicate_loop (fuel : nat) (oldtarget newtarget : nat)
    (it : iterator) (l : list connection) (next : nat)
  : result (list connection * nat) :=
  match fuel with
  | 0 => OutOfFuel
  | S fuel' =>
      match it with
      | it_end => Ok (l, next)
      | it_node id =>
          match node_at id l with
          | None => UB
          | Some (c, _) =>
              let '(l1, next1) :=
                if decide (getdest c = oldtarget)
                then (l ++ [duplicate c newtarget next], S next)
                else (l, next) in
              match node_at id l1 with
              | None => UB
              | Some (_, itNext) =>
                  slot_duplicate_loop fuel' oldtarget newtarget itNext l1 next1
              end
          end
      end
  end.

Definition slot_duplicate (fuel : nat) (this oldtarget newtarget : nat)
    (st : state) : result state :=
  match m_connected_slots st !! this with
  | None => UB
  | Some l =>
      '(l', next') ←
        slot_duplicate_loop fuel oldtarget newtarget (begin l) l (next_conn st);
      Ok (State (<[this := l']> (m_connected_slots st)) (m_senders st) next')
  end.

(** ** has_slots copy constructor

    [this] is the address of the object under construction; it starts with
    an empty [m_senders]. *)

Fixpoint has_slots_copy_loop (fuel : nat) (hs this : nat) (senders : list nat)
    (st : state) : result state :=
  match senders with
  | [] => Ok st
  | s :: rest =>
      st1 ← slot_duplicate fuel s hs this st;
      let st2 :=
        State (m_connected_slots st1)
              (alter (λ ms, {[s]} ∪ ms) this (m_senders st1))
              (next_conn st1) in
      has_slots_copy_loop fuel hs this rest st2
  end.

Definition has_slots_copy (fuel : nat) (hs this : nat) (st : state)
  : result state :=
  match m_senders st !! hs with
  | None => UB
  | Some s => has_slots_copy_loop fuel hs this (elements s) (has_slots_new this st)
  end.

(** ** _signal_bases copy constructor

    For each connection of the source: [signal_connect(this)] on its
    destination, then [push_back] of its clone. *)

Fixpoint signal_copy_loop (this : nat) (src : list connection) (st : state)
  : result state :=
  match src with
  | [] => Ok st
  | c :: rest =>
      st1 ← signal_connect (getdest c) this st;
      let st2 :=
        State (alter (λ l, l ++ [clone c (next_conn st1)]) this
                     (m_connected_slots st1))
              (m_senders st1) (S (next_conn st1)) in
      signal_copy_loop this rest st2
  end.

Definition signal_copy (s this : nat) (st : state) : result state :=
  match m_connected_slots st !! s with
  | None => UB
  | Some src => signal_copy_loop this src (signals_new this st)
  end.

(** ** signals::emit (and operator())

    [body f r a] is the user's member function [f] run on receiver object [r]
    with arguments [a]; it may call back into the library.  The loop reports
    the calls it made, oldest first. *)

Section Emit.
Context {Args : Type}.
Variable body : nat → nat → Args → state → result state.

Definition conn_emit (c : connection) (a : Args) (st : state) : result state :=
  match m_senders st !! m_pobject c with
  | None => UB
  | Some _ => body (m_pmemfun c) (m_pobject c) a st
  end.

Fixpoint emit_loop (fuel : nat) (this : nat) (it : iterator) (a : Args)
    (calls : list (nat * nat * Args)) (st : state)
  : result (list (nat * nat * Args) * state) :=
  match fuel with
  | 0 => OutOfFuel
  | S fuel' =>
      match it with
      | it_end => Ok (calls, st)
      | it_node id =>
          match m_connected_slots st !! this with
          | None => UB
          | Some l =>
              match node_at id l with
              | None => UB
              | Some (c, itNext) =>
                  st' ← conn_emit c a st;
                  emit_loop fuel' this itNext a
                    (calls ++ [(m_pobject c, m_pmemfun c, a)]) st'
              end
          end
      end
  end.

Definition emit (fuel : nat) (this : nat) (a : Args) (st : state)
  : result (list (nat * nat * Args) * state) :=
  match m_connected_slots st !! this with
  | None => UB
  | Some l => emit_loop fuel this (begin l) a [] st
  end.
End Emit.

(** ** signals::operator()

    The source repeats the loop of [emit] in the call operator. *)

Section CallOperator.
Context {Args : Type}.
Variable body : nat → nat → Args → state → result state.

Fixpoint operator_call_loop (fuel : nat) (this : nat) (it : iterator) (a : Args)
    (calls : list (nat * nat * Args)) (st : state)
  : result (list (nat * nat * Args) * state) :=
  match fuel with
  | 0 => OutOfFuel
  | S fuel' =>
      match it with
      | it_end => Ok (calls, st)
      | it_node id =>
          match m_connected_slots st !! this with
          | None => UB
          | Some l =>
              match node_at id l with
              | None => UB
              | Some (c, itNext) =>
                  st' ← conn_emit body c a st;
                  operator_call_loop fuel' this itNext a
                    (calls ++ [(m_pobject c, m_pmemfun c, a)]) st'
              end
          end
      end
  end.

Definition operator_call (fuel : nat) (this : nat) (a : Args) (st : state)
  : result (list (nat * nat * Args) * state) :=
  match m_connected_slots st !! this with
  | None => UB
  | Some l => operator_call_loop fuel this (begin l) a [] st
  end.
End CallOperator.

(** What [emit] should call for a list of connections. *)
Definition calls_of {Args : Type} (a : Args) (l : list connection)
  : list (nat * nat * Args) :=
  map (λ c, (m_pobject c, m_pmemfun c, a)) l.

(** What running the callables bound in [l] does to the store: each member
    function once, on its receiver, with the arguments [a], in list order,
    each starting from the store its predecessor left. *)
Fixpoint run_calls {Args : Type} (body : nat → nat → Args → state → result state)
    (a : Args) (l : list connection) (st : state) : result state :=
  match l with
  | [] => Ok st
  | c :: l' =>
      st' ← body (m_pmemfun c) (m_pobject c) a st;
      run_calls body a l' st'
  end.

(** ** Predicates used in the statements *)

(** The connections of [this] are exactly [l], and each of them points to a
    receiver that is still alive. *)
Definition attached (this : nat) (l : list connection) (st : state) : Prop :=
  m_connected_slots st !! this = Some l ∧
  ∀ c, c ∈ l → is_Some (m_senders st !! getdest c).

(** Every callable bound in [l] returns normally and re-establishes [P]
    when it is started in a store where [P] holds. *)
Definition keeps {Args : Type} (body : nat → nat → Args → state → result state)
    (a : Args) (l : list connection) (P : state → Prop) : Prop :=
  ∀ c st, c ∈ l → P st →
    ∃ st', body (m_pmemfun c) (m_pobject c) a st = Ok st' ∧ P st'.

(** The cross-reference relation of the two stores. *)
Definition back_referenced (st : state) : Prop :=
  ∀ e l c, m_connected_slots st !! e = Some l → c ∈ l →
    ∃ s, m_senders st !! getdest c = Some s ∧ e ∈ s.

Definition back_references_exact (st : state) : Prop :=
  ∀ r s e, m_senders st !! r = Some s →
    (e ∈ s ↔ ∃ l c, m_connected_slots st !! e = Some l ∧ c ∈ l ∧ getdest c = r).

Definition symmetric (st : state) : Prop :=
  back_referenced st ∧ back_references_exact st.

(** Connections to [r], in list order. *)
Definition targeting (r : nat) (l : list connection) : list connection :=
  filter (λ c, getdest c = r) l.

(** [l] rebound to [pnewdest], allocated at [id], [id + 1], ... *)
Fixpoint rebound (pnewdest : nat) (id : nat) (l : list connection)
  : list connection :=
  match l with
  | [] => []
  | c :: l' => duplicate c pnewdest id :: rebound pnewdest (S id) l'
  end.

(** [l] cloned, allocated at [id], [id + 1], ... *)
Fixpoint cloned (id : nat) (l : list connection) : list connection :=
  match l with
  | [] => []
  | c :: l' => clone c id :: cloned (S id) l'
  end.

(** What the receiver copy constructor relies on for a signal [e] listed in
    [hs.m_senders]: [e] is alive, its nodes are distinct and were allocated
    before, and the fuel covers a walk over the grown list. *)
Definition copy_ready (fuel : nat) (st : state) (e : nat) : Prop :=
  ∃ l, m_connected_slots st !! e = Some l ∧
       NoDup (conn_id <$> l) ∧
       (∀ c, c ∈ l → conn_id c < next_conn st) ∧
       2 * length l < fuel.

(** The callable of [c] either disconnects its own receiver from [this]
    (member functions marked by [selfdisc]) or leaves the library alone. *)
Definition self_or_quiet {Args : Type}
    (body : nat → nat → Args → state → result state) (selfdisc : nat → bool)
    (this : nat) (a : Args) (c : connection) : Prop :=
  ∀ st, body (m_pmemfun c) (m_pobject c) a st
        = if selfdisc (m_pmemfun c) then disconnect this (m_pobject c) st else Ok st.

Definition stays (selfdisc : nat → bool) (c : connection) : Prop :=
  selfdisc (m_pmemfun c) = false.

#[global] Instance stays_dec selfdisc c : Decision (stays selfdisc c).
Proof. unfold stays. apply _. Defined.

(** Nodes of one list are distinct, and every node was handed out by the
    allocator before. *)
Definition well_allocated (st : state) : Prop :=
  ∀ e l, m_connected_slots st !! e = Some l →
    NoDup (conn_id <$> l) ∧ ∀ c, c ∈ l → conn_id c < next_conn st.

(** A caller that calls [disconnect] for the same receiver [n] times. *)
Fixpoint disconnect_times (n : nat) (this pclass : nat) (st : state)
  : result state :=
  match n with
  | 0 => Ok st
  | S n' =>
      st' ← disconnect this pclass st;
      disconnect_times n' this pclass st'
  end.

(** Every signal that a receiver lists is alive and holds a connection to
    that receiver. *)
Definition no_stale_listing (st : state) : Prop :=
  ∀ r s e, m_senders st !! r = Some s → e ∈ s →
    ∃ l c, m_connected_slots st !! e = Some l ∧ c ∈ l ∧ getdest c = r.

(** ** Example programs

    One signal at address 1 (and room for a copy at 2), receivers at
    addresses 10, 11 and 12 (and room for a copy at 13). *)

Definition ok_state (r : result state) : state :=
  match r with
  | Ok st => st
  | _ => empty_state
  end.

Definition objects : state :=
  has_slots_new 12 (has_slots_new 11 (has_slots_new 10 (signals_new 1 empty_state))).

(** Member functions that never call the library. *)
Definition quiet (f r : nat) (a : nat) (st : state) : result state := Ok st.

(** Member function 1 calls [disconnect] for receiver 11 on signal 1. *)
Definition drops_11 (f r : nat) (a : nat) (st : state) : result state :=
  match f with
  | 1 => disconnect 1 11 st
  | _ => Ok st
  end.

(** Member function 1 calls [disconnect] for its own receiver on signal 1. *)
Definition drops_self (f r : nat) (a : nat) (st : state) : result state :=
  match f with
  | 1 => disconnect 1 r st
  | _ => Ok st
  end.

(** connect(10, f0); connect(11, f0) *)
Definition world_pair : state :=
  ok_state (st ← connect 1 10 0 objects; connect 1 11 0 st).

(** Every member function notes its call by connecting its receiver, with
    the same member function, to the signal at address 2 (when that signal
    and the receiver are alive). *)
Definition tallies (f r : nat) (a : nat) (st : state) : result state :=
  match connect 2 r f st with
  | Ok st' => Ok st'
  | _ => Ok st
  end.

(** A second signal at address 2, then connect(10, f0); connect(11, f0) on
    signal 1. *)
Definition world_tally : state :=
  ok_state (st ← connect 1 10 0 (signals_new 2 objects); connect 1 11 0 st).

(** connect(10, f0); connect(10, f0) *)
Definition world_twice : state :=
  ok_state (st ← connect 1 10 0 objects; connect 1 10 0 st).

(** Member function 1 connects receiver 12 (member function 0) to signal 1. *)
Definition connects_12 (f r : nat) (a : nat) (st : state) : result state :=
  match f with
  | 1 => connect 1 12 0 st
  | _ => Ok st
  end.

(** connect(10, f1); connect(11, f0) *)
Definition world_self : state :=
  ok_state (st ← connect 1 10 1 objects; connect 1 11 0 st).

(** Member function 1 is the one that disconnects. *)
Definition marks_1 (f : nat) : bool := Nat.eqb f 1.

(** connect(10, f1); connect(11, f0); connect(12, f0) *)
Definition world_chain : state :=
  ok_state (st ← connect 1 10 1 objects; st ← connect 1 11 0 st; connect 1 12 0 st).

(** ** Proof steps for concrete lists and quiet callables *)

Ltac each_of H :=
  repeat (apply elem_of_cons in H as [->|H]); [..|by apply elem_of_nil in H].

Ltac quiet_keeps :=
  let c := fresh in let x := fresh in
  intros c x ? ?; exists x; done.

(** * Basic facts *)

Lemma node_at_middle (pre : list connection) c post :
  NoDup (conn_id <$> (pre ++ c :: post)) →
  node_at (conn_id c) (pre ++ c :: post) = Some (c, begin post).
Proof.
  induction pre as [|x pre IH]; simpl; intros Hnd.
  - by rewrite decide_True.
  - apply NoDup_cons in Hnd as [Hx Hnd].
    rewrite decide_False; [by apply IH|].
    intros Heq. apply Hx. rewrite Heq, fmap_app, elem_of_app. right. simpl. left.
Qed.

Lemma calls_of_app {Args} (a : Args) l1 l2 :
  calls_of a (l1 ++ l2) = calls_of a l1 ++ calls_of a l2.
Proof. unfold calls_of. apply map_app. Qed.

(** * Dispatch over an undisturbed list *)

Section EmitFacts.
Context {Args : Type}.
Variable body : nat → nat → Args → state → result state.

Lemma emit_loop_steady (this : nat) (a : Args) (P : state → Prop) l :
  (∀ st, P st → attached this l st) →
  NoDup (conn_id <$> l) →
  keeps body a l P →
  ∀ rest pre fuel calls st,
    l = pre ++ rest → P st → length rest < fuel →
    ∃ st', emit_loop body fuel this (begin rest) a calls st
             = Ok (calls ++ calls_of a rest, st') ∧ P st'.
Proof.
  intros HP Hnd Hk rest.
  induction rest as [|c rest IH]; intros pre fuel calls st Hl Hst Hfuel.
  - destruct fuel; [simpl in Hfuel; lia|]. simpl.
    exists st. by rewrite app_nil_r.
  - destruct fuel; [simpl in Hfuel; lia|]. simpl in *.
    destruct (HP _ Hst) as [Hlist Hlive].
    rewrite Hlist. subst l. rewrite node_at_middle by done.
    unfold conn_emit.
    destruct (Hlive c) as [s Hs]; [rewrite elem_of_app; right; left|].
    unfold getdest in Hs. rewrite Hs.
    destruct (Hk c st) as (st1 & Hb & Hst1); [rewrite elem_of_app; right; left|done|].
    rewrite Hb. simpl.
    destruct (IH (pre ++ [c]) fuel (calls ++ [(m_pobject c, m_pmemfun c, a)]) st1)
      as (st' & He & Hst'); [by rewrite <- app_assoc|done|lia|].
    exists st'. split; [|done]. rewrite He. by rewrite <- app_assoc.
Qed.

Lemma emit_steady (this : nat) (a : Args) (P : state → Prop) l fuel st :
  (∀ st, P st → attached this l st) →
  NoDup (conn_id <$> l) →
  keeps body a l P →
  P st → length l < fuel →
  ∃ st', emit body fuel this a st = Ok (calls_of a l, st') ∧ P st'.
Proof.
  intros HP Hnd Hk Hst Hfuel. unfold emit.
  destruct (HP _ Hst) as [Hlist _]. rewrite Hlist.
  by apply (emit_loop_steady this a P l HP Hnd Hk l [] fuel [] st).
Qed.

Lemma emit_loop_runs (this : nat) (a : Args) (P : state → Prop) l :
  (∀ st, P st → attached this l st) →
  NoDup (conn_id <$> l) →
  keeps body a l P →
  ∀ rest pre fuel calls st,
    l = pre ++ rest → P st → length rest < fuel →
    ∃ st', emit_loop body fuel this (begin rest) a calls st
             = Ok (calls ++ calls_of a rest, st') ∧
           run_calls body a rest st = Ok st' ∧ P st'.
Proof.
  intros HP Hnd Hk rest.
  induction rest as [|c rest IH]; intros pre fuel calls st Hl Hst Hfuel.
  - destruct fuel; [simpl in Hfuel; lia|]. simpl.
    exists st. by rewrite app_nil_r.
  - destruct fuel; [simpl in Hfuel; lia|]. simpl in *.
    destruct (HP _ Hst) as [Hlist Hlive].
    rewrite Hlist. subst l. rewrite node_at_middle by done.
    unfold conn_emit.
    destruct (Hlive c) as [s Hs]; [rewrite elem_of_app; right; left|].
    unfold getdest in Hs. rewrite Hs.
    destruct (Hk c st) as (st1 & Hb & Hst1); [rewrite elem_of_app; right; left|done|].
    rewrite Hb. simpl.
    destruct (IH (pre ++ [c]) fuel (calls ++ [(m_pobject c, m_pmemfun c, a)]) st1)
      as (st' & He & Hrun & Hst'); [by rewrite <- app_assoc|done|lia|].
    exists st'. split; [|done]. rewrite He. by rewrite <- app_assoc.
Qed.

Lemma emit_runs (this : nat) (a : Args) (P : state → Prop) l fuel st :
  (∀ st, P st → attached this l st) →
  NoDup (conn_id <$> l) →
  keeps body a l P →
  P st → length l < fuel →
  ∃ st', emit body fuel this a st = Ok (calls_of a l, st') ∧
         run_calls body a l st = Ok st' ∧ P st'.
Proof.
  intros HP Hnd Hk Hst Hfuel. unfold emit.
  destruct (HP _ Hst) as [Hlist _]. rewrite Hlist.
  by apply (emit_loop_runs this a P l HP Hnd Hk l [] fuel [] st).
Qed.

(** C1. For a signal whose list holds the connections [l] (any number of
    them), [emit] calls the member function of every connection of [l]
    exactly once, with the arguments given, in list order: the calls it
    makes are [calls_of a l], and the store it leaves is the one that
    running these member functions once each, in list order, leaves
    ([run_calls]).  The callables are taken to leave the list of this
    signal and its receivers in place. *)
Theorem emit_calls_each_once_in_order (this : nat) (a : Args) l fuel st :
  attached this l st →
  NoDup (conn_id <$> l) →
  keeps body a l (attached this l) →
  length l < fuel →
  ∃ st', emit body fuel this a st = Ok (calls_of a l, st') ∧
         run_calls body a l st = Ok st' ∧
         attached this l st'.
Proof.
  intros Hst Hnd Hk Hfuel.
  by apply (emit_runs this a (attached this l) l fuel st).
Qed.
End EmitFacts.

(** * disconnect *)

Lemma disconnect_loop_first pclass (l1 : list connection) c l2 :
  getdest c = pclass →
  (∀ c', c' ∈ l1 → getdest c' ≠ pclass) →
  disconnect_loop pclass (l1 ++ c :: l2) = Some (l1 ++ l2).
Proof.
  intros Hc. induction l1 as [|x l1 IH]; simpl; intros Hl1.
  - by rewrite decide_True.
  - rewrite decide_False by (apply Hl1; left).
    rewrite IH; [done|]. intros c' Hc'. apply Hl1. by right.
Qed.

Lemma disconnect_loop_None pclass (l : list connection) :
  (∀ c, c ∈ l → getdest c ≠ pclass) → disconnect_loop pclass l = None.
Proof.
  induction l as [|x l IH]; simpl; intros Hl; [done|].
  rewrite decide_False by (apply Hl; left).
  rewrite IH; [done|]. intros c Hc. apply Hl. by right.
Qed.

Lemma disconnect_loop_Some_inv pclass (l l' : list connection) :
  disconnect_loop pclass l = Some l' →
  ∃ l1 c l2, l = l1 ++ c :: l2 ∧ l' = l1 ++ l2 ∧ getdest c = pclass ∧
             ∀ c', c' ∈ l1 → getdest c' ≠ pclass.
Proof.
  revert l'. induction l as [|x l IH]; simpl; intros l' H; [done|].
  destruct (decide (getdest x = pclass)) as [Hx|Hx].
  - inversion H; subst. exists [], x, l'. repeat split; try done.
    intros c' Hc'. by apply elem_of_nil in Hc'.
  - destruct (disconnect_loop pclass l) as [l0|] eqn:E; [|done].
    simpl in H. inversion H; subst.
    destruct (IH l0 eq_refl) as (l1 & c & l2 & -> & -> & Hc & Hl1).
    exists (x :: l1), c, l2. repeat split; try done.
    intros c' Hc'. apply elem_of_cons in Hc' as [->|Hc']; [done|by apply Hl1].
Qed.

Lemma targeting_app r (l1 l2 : list connection) :
  targeting r (l1 ++ l2) = targeting r l1 ++ targeting r l2.
Proof. unfold targeting. apply filter_app. Qed.

Lemma targeting_none r (l : list connection) :
  (∀ c, c ∈ l → getdest c ≠ r) → targeting r l = [].
Proof.
  unfold targeting. induction l as [|x l IH]; intros Hl; [done|].
  rewrite filter_cons_False by (apply Hl; left).
  apply IH. intros c Hc. apply Hl. by right.
Qed.

Lemma disconnect_loop_None_inv pclass (l : list connection) :
  disconnect_loop pclass l = None → targeting pclass l = [].
Proof.
  unfold targeting. induction l as [|x l IH]; simpl; [done|].
  destruct (decide (getdest x = pclass)) as [Hx|Hx]; [done|].
  destruct (disconnect_loop pclass l); [done|]. intros _.
  rewrite filter_cons_False by done. by apply IH.
Qed.

(** C4. When the list of [this] is [l1 ++ c :: l2], where [c] is the first
    connection whose destination is [pclass], [disconnect this pclass]
    leaves the list [l1 ++ l2] (every later connection to [pclass] stays),
    and erases [this] from the [m_senders] set of [pclass] through
    [signal_disconnect]; one call lowers the number of connections to
    [pclass] by exactly one. *)
Theorem disconnect_removes_first_match this pclass l1 c l2 s st :
  m_connected_slots st !! this = Some (l1 ++ c :: l2) →
  getdest c = pclass →
  (∀ c', c' ∈ l1 → getdest c' ≠ pclass) →
  m_senders st !! pclass = Some s →
  disconnect this pclass st =
    Ok (State (<[this := l1 ++ l2]> (m_connected_slots st))
              (<[pclass := s ∖ {[this]}]> (m_senders st))
              (next_conn st)) ∧
  targeting pclass (l1 ++ c :: l2) = c :: targeting pclass (l1 ++ l2) ∧
  targeting pclass (l1 ++ l2) = targeting pclass l2.
Proof.
  intros Hl Hc Hl1 Hs. split; [|split].
  - unfold disconnect. rewrite Hl, (disconnect_loop_first pclass l1 c l2) by done.
    unfold signal_disconnect, set_slots, set_senders. simpl. by rewrite Hs.
  - rewrite !targeting_app, (targeting_none pclass l1) by done. simpl.
    unfold targeting. by rewrite filter_cons_True.
  - by rewrite targeting_app, (targeting_none pclass l1).
Qed.

(** C9. When no connection in the list of [this] has destination [pclass],
    [disconnect this pclass] returns normally with the store exactly as it
    was: the list, every [m_senders] set and the allocator are untouched,
    and [signal_disconnect] is not called (the call succeeds even when
    [pclass] is no live object). *)
Theorem disconnect_absent_is_noop this pclass l st :
  m_connected_slots st !! this = Some l →
  (∀ c, c ∈ l → getdest c ≠ pclass) →
  disconnect this pclass st = Ok st.
Proof.
  intros Hl Hno. unfold disconnect. by rewrite Hl, disconnect_loop_None.
Qed.

(** * Dispatch while callables disconnect their own receiver *)

Lemma disconnect_loop_at r (kept : list connection) c rest :
  getdest c = r →
  ∃ kept1, disconnect_loop r (kept ++ c :: rest) = Some (kept1 ++ rest) ∧
    kept1 `sublist_of` kept ++ [c] ∧
    ((∀ x, x ∈ kept → getdest x ≠ r) → kept1 = kept).
Proof.
  intros Hc. induction kept as [|x kept IH]; simpl.
  - exists []. rewrite decide_True by done. split; [done|].
    split; [apply sublist_nil_l|done].
  - destruct (decide (getdest x = r)) as [Hx|Hx].
    + exists (kept ++ [c]). split; [by rewrite <- app_assoc|].
      split; [by apply sublist_cons|].
      intros Hno. exfalso. apply (Hno x); [left|done].
    + destruct IH as (kept1 & -> & Hsub & Hsame). exists (x :: kept1).
      split; [done|]. split; [by apply sublist_skip|].
      intros Hno. rewrite Hsame; [done|]. intros y Hy. apply Hno. by right.
Qed.

Section SelfDisconnect.
Context {Args : Type}.
Variable body : nat → nat → Args → state → result state.
Variable selfdisc : nat → bool.
Variable this : nat.
Variable a : Args.

Local Abbreviation self_or_quiet := (self_or_quiet body selfdisc this a).
Local Abbreviation stays := (stays selfdisc).

Lemma emit_loop_self_disconnect rest :
  ∀ kept fuel calls st,
    attached this (kept ++ rest) st →
    NoDup (conn_id <$> (kept ++ rest)) →
    (∀ c, c ∈ rest → self_or_quiet c) →
    length rest < fuel →
    ∃ st' kept',
      emit_loop body fuel this (begin rest) a calls st
        = Ok (calls ++ calls_of a rest, st') ∧
      attached this kept' st' ∧
      kept' `sublist_of` kept ++ rest ∧
      (∀ r, is_Some (m_senders st !! r) → is_Some (m_senders st' !! r)) ∧
      (NoDup (getdest <$> (kept ++ rest)) → kept' = kept ++ filter stays rest).
Proof.
  induction rest as [|c rest IH]; intros kept fuel calls st [Hl Hlive] Hnd Hbody Hfuel;
    (destruct fuel; [simpl in Hfuel; lia|]); simpl.
  - exists st, kept. rewrite !app_nil_r in *. by repeat split.
  - rewrite Hl, node_at_middle by done. unfold conn_emit.
    destruct (Hlive c) as [s Hs]; [apply elem_of_app; right; left|].
    unfold getdest in Hs. rewrite Hs.
    rewrite (Hbody c) by left.
    destruct (selfdisc (m_pmemfun c)) eqn:Hsd.
    + destruct (disconnect_loop_at (m_pobject c) kept c rest eq_refl)
        as (kept1 & Hloop & Hsub & Hsame).
      unfold disconnect. rewrite Hl, Hloop.
      unfold signal_disconnect. simpl. rewrite Hs. simpl.
      set (st1 := set_senders _ _ _).
      assert (Hsub1 : kept1 ++ rest `sublist_of` kept ++ c :: rest).
      { replace (kept ++ c :: rest) with ((kept ++ [c]) ++ rest)
          by (by rewrite <- app_assoc).
        by apply sublist_app. }
      assert (Hkeep : ∀ r, is_Some (m_senders st !! r) → is_Some (m_senders st1 !! r)).
      { intros r Hr. subst st1. simpl.
        destruct (decide (m_pobject c = r)) as [->|Hne].
        - rewrite lookup_insert_eq. eauto.
        - by rewrite lookup_insert_ne. }
      destruct (IH kept1 fuel (calls ++ [(m_pobject c, m_pmemfun c, a)]) st1)
        as (st' & kept' & He & Hatt & Hsub' & Hlive' & Hchar).
      { split; [subst st1; simpl; by rewrite lookup_insert_eq|].
        intros x Hx. apply Hkeep, Hlive. by eapply elem_of_sublist. }
      { eapply sublist_NoDup; [exact Hnd|]. by apply fmap_sublist. }
      { intros x Hx. apply Hbody. by right. }
      { simpl in Hfuel. lia. }
      exists st', kept'. split; [by rewrite He, <- app_assoc|].
      split; [done|]. split; [by etrans|]. split; [by auto|].
      intros Hndt. unfold stays at 1. rewrite filter_cons_False by (unfold stays; congruence).
      assert (kept1 = kept) as ->.
      { apply Hsame. intros x Hx Heq.
        rewrite fmap_app in Hndt. apply NoDup_app in Hndt as (_ & Hdisj & _).
        apply (Hdisj (getdest x)); [by apply list_elem_of_fmap_2|].
        rewrite Heq. simpl. left. }
      apply Hchar. eapply sublist_NoDup; [exact Hndt|]. by apply fmap_sublist.
    + simpl.
      destruct (IH (kept ++ [c]) fuel (calls ++ [(m_pobject c, m_pmemfun c, a)]) st)
        as (st' & kept' & He & Hatt & Hsub' & Hlive' & Hchar).
      { by rewrite <- app_assoc. }
      { by rewrite <- app_assoc. }
      { intros x Hx. apply Hbody. by right. }
      { simpl in Hfuel. lia. }
      exists st', kept'. split; [by rewrite He, <- app_assoc|].
      split; [done|]. rewrite <- app_assoc in Hsub', Hchar. split; [done|].
      split; [done|]. intros Hndt.
      rewrite filter_cons_True by done. rewrite (Hchar Hndt). by rewrite <- app_assoc.
Qed.

Lemma emit_self_disconnect l fuel st :
  attached this l st →
  NoDup (conn_id <$> l) →
  (∀ c, c ∈ l → self_or_quiet c) →
  length l < fuel →
  ∃ st' kept,
    emit body fuel this a st = Ok (calls_of a l, st') ∧
    attached this kept st' ∧
    kept `sublist_of` l ∧
    (NoDup (getdest <$> l) → kept = filter stays l).
Proof.
  intros Hatt Hnd Hbody Hfuel. unfold emit. rewrite (proj1 Hatt).
  destruct (emit_loop_self_disconnect l [] fuel [] st)
    as (st' & kept & He & Hatt' & Hsub & _ & Hchar); try done.
  by exists st', kept.
Qed.

(** X21. What the saved iterator does cover.  When every callable
    either disconnects its own receiver from the signal or leaves the library
    alone, [emit] still calls every connection of the list exactly once, in
    order; the list left behind is a sublist of the old one (the connections
    whose callable stays, when no receiver is connected twice), and a second
    [emit] calls exactly the connections left. *)
Theorem emit_tolerates_self_disconnect l fuel st :
  attached this l st →
  NoDup (conn_id <$> l) →
  (∀ c, c ∈ l → self_or_quiet c) →
  length l < fuel →
  ∃ st' kept,
    emit body fuel this a st = Ok (calls_of a l, st') ∧
    attached this kept st' ∧
    kept `sublist_of` l ∧
    (NoDup (getdest <$> l) → kept = filter stays l) ∧
    ∃ st'', emit body fuel this a st' = Ok (calls_of a kept, st'').
Proof.
  intros Hatt Hnd Hbody Hfuel.
  destruct (emit_self_disconnect l fuel st) as (st' & kept & He & Hatt' & Hsub & Hchar);
    try done.
  exists st', kept. do 4 (split; [done|]).
  destruct (emit_self_disconnect kept fuel st') as (st'' & _ & He' & _); try done.
  - eapply sublist_NoDup; [exact Hnd|]. by apply fmap_sublist.
  - intros c Hc. apply Hbody. by eapply elem_of_sublist.
  - apply sublist_length in Hsub. lia.
  - by exists st''.
Qed.
End SelfDisconnect.

(** * Receiver teardown *)

Lemma slot_disconnect_loop_filter pslot (l : list connection) :
  slot_disconnect_loop pslot l = filter (λ c, getdest c ≠ pslot) l.
Proof.
  induction l as [|x l IH]; simpl; [done|].
  destruct (decide (getdest x = pslot)) as [Hx|Hx].
  - rewrite filter_cons_False by (intros H; by apply H). done.
  - rewrite filter_cons_True by done. by rewrite IH.
Qed.

Lemma slot_disconnect_senders this pslot st st' :
  slot_disconnect this pslot st = Ok st' →
  m_senders st' = m_senders st ∧ next_conn st' = next_conn st.
Proof.
  unfold slot_disconnect. destruct (m_connected_slots st !! this); [|done].
  intros H. inversion H; subst. done.
Qed.

Lemma has_slots_disconnect_loop_spec this senders :
  NoDup senders →
  ∀ st, (∀ e, e ∈ senders → is_Some (m_connected_slots st !! e)) →
  ∃ st', has_slots_disconnect_loop this senders st = Ok st' ∧
    m_senders st' = m_senders st ∧ next_conn st' = next_conn st ∧
    ∀ e, m_connected_slots st' !! e =
         if decide (e ∈ senders)
         then slot_disconnect_loop this <$> m_connected_slots st !! e
         else m_connected_slots st !! e.
Proof.
  induction 1 as [|s rest Hs Hnd IH]; intros st Hlive; simpl.
  - exists st. by do 3 (split; [done|]).
  - destruct (Hlive s) as [l Hl]; [left|].
    unfold slot_disconnect. rewrite Hl. simpl.
    destruct (IH (set_slots s (slot_disconnect_loop this l) st))
      as (st' & Hloop & Hms & Hn & Hcs).
    { intros e He. simpl. destruct (decide (s = e)) as [->|Hne].
      - rewrite lookup_insert_eq. eauto.
      - rewrite lookup_insert_ne by done. apply Hlive. by right. }
    exists st'. do 3 (split; [done|]). intros e. rewrite Hcs. simpl.
    destruct (decide (e = s)) as [->|Hne].
    + rewrite decide_False by done. rewrite lookup_insert_eq, Hl.
      rewrite decide_True by left. done.
    + rewrite lookup_insert_ne by done.
      destruct (decide (e ∈ rest)) as [Hin|Hin].
      * rewrite decide_True by (by right). done.
      * rewrite decide_False; [done|].
        intros H. apply elem_of_cons in H as [?|?]; done.
Qed.

Lemma has_slots_destroy_spec this s st :
  m_senders st !! this = Some s →
  (∀ e, e ∈ s → is_Some (m_connected_slots st !! e)) →
  ∃ st', has_slots_destroy this st = Ok st' ∧
    m_senders st' = delete this (m_senders st) ∧
    next_conn st' = next_conn st ∧
    ∀ e, m_connected_slots st' !! e =
         if decide (e ∈ s)
         then filter (λ c, getdest c ≠ this) <$> m_connected_slots st !! e
         else m_connected_slots st !! e.
Proof.
  intros Hs Hlive.
  destruct (has_slots_disconnect_loop_spec this (elements s) (NoDup_elements s) st)
    as (st1 & Hloop & Hms & Hn & Hcs).
  { intros e He. apply Hlive. by apply elem_of_elements. }
  unfold has_slots_destroy, has_slots_disconnect_all.
  rewrite Hs, Hloop. simpl.
  eexists. split; [done|]. simpl. split; [|split; [done|]].
  - rewrite Hms. apply delete_insert_eq.
  - intros e. rewrite Hcs.
    destruct (decide (e ∈ s)) as [He|He].
    + rewrite decide_True by (by apply elem_of_elements).
      destruct (m_connected_slots st !! e); simpl; [|done].
      by rewrite slot_disconnect_loop_filter.
    + rewrite decide_False; [done|]. by rewrite elem_of_elements.
Qed.

Section Teardown.
Context {Args : Type}.
Variable body : nat → nat → Args → state → result state.

(** C5. Destroying a receiver [this] whose [m_senders] is [s] (all of them
    live signals) returns normally; every signal in [s] keeps its list
    with exactly the connections to [this] filtered out, other signals are
    untouched; [slot_disconnect], the signal-side removal, never changes
    an [m_senders] set, so it does not call back into the receiver; and a
    later [emit] on a signal of [s] calls exactly the connections that are
    left, none of them on [this]. *)
Theorem has_slots_destroy_drops_connections this s st :
  m_senders st !! this = Some s →
  (∀ e, e ∈ s → is_Some (m_connected_slots st !! e)) →
  ∃ st', has_slots_destroy this st = Ok st' ∧
    m_senders st' = delete this (m_senders st) ∧
    (∀ e, e ∈ s → ∃ l, m_connected_slots st !! e = Some l ∧
       m_connected_slots st' !! e = Some (filter (λ c, getdest c ≠ this) l)) ∧
    (∀ e, e ∉ s → m_connected_slots st' !! e = m_connected_slots st !! e) ∧
    (∀ e st1 st2, slot_disconnect e this st1 = Ok st2 →
       m_senders st2 = m_senders st1) ∧
    (∀ e l' a fuel, e ∈ s →
       m_connected_slots st' !! e = Some l' →
       NoDup (conn_id <$> l') →
       (∀ c, c ∈ l' → is_Some (m_senders st' !! getdest c)) →
       keeps body a l' (attached e l') →
       length l' < fuel →
       ∃ st'', emit body fuel e a st' = Ok (calls_of a l', st'') ∧
               ∀ f x, (this, f, x) ∉ calls_of a l').
Proof.
  intros Hs Hlive.
  destruct (has_slots_destroy_spec this s st Hs Hlive)
    as (st' & Hd & Hms & Hn & Hcs).
  exists st'. split; [done|]. split; [done|].
  assert (Hin : ∀ e, e ∈ s → ∃ l, m_connected_slots st !! e = Some l ∧
       m_connected_slots st' !! e = Some (filter (λ c, getdest c ≠ this) l)).
  { intros e He. destruct (Hlive e He) as [l Hl]. exists l. split; [done|].
    rewrite Hcs, decide_True by done. by rewrite Hl. }
  split; [done|]. split.
  { intros e He. by rewrite Hcs, decide_False. }
  split.
  { intros e st1 st2 H. by apply slot_disconnect_senders in H as [? _]. }
  intros e l' a fuel He Hl' Hnd Htargets Hk Hfuel.
  destruct (emit_steady body e a (attached e l') l' fuel st')
    as (st'' & Hemit & _); try done.
  exists st''. split; [done|].
  intros f x Hcall. unfold calls_of in Hcall.
  apply list_elem_of_In, in_map_iff in Hcall as (c & Hc & Hcin).
  apply list_elem_of_In in Hcin.
  destruct (Hin e He) as (l & _ & Hl). rewrite Hl in Hl'.
  inversion Hl'; subst l'. apply list_elem_of_filter in Hcin as [Hne _].
  inversion Hc; subst. by apply Hne.
Qed.
End Teardown.

(** * slot_duplicate *)

Lemma rebound_ids new n (l : list connection) :
  conn_id <$> rebound new n l = seq n (length l).
Proof. revert n. induction l as [|c l IH]; intros n; simpl; [done|]. by rewrite IH. Qed.

Lemma rebound_length new n (l : list connection) :
  length (rebound new n l) = length l.
Proof. revert n. induction l as [|c l IH]; intros n; simpl; [done|]. by rewrite IH. Qed.

Lemma rebound_elem new n (l : list connection) c :
  c ∈ rebound new n l → getdest c = new ∧ n ≤ conn_id c < n + length l.
Proof.
  revert n. induction l as [|x l IH]; intros n; simpl; intros H.
  - by apply elem_of_nil in H.
  - apply elem_of_cons in H as [->|H]; [simpl; split; [done|lia]|].
    apply IH in H as [? ?]. split; [done|lia].
Qed.

Lemma calls_of_rebound {Args} (a : Args) new n (l : list connection) :
  calls_of a (rebound new n l) = (λ c, (new, m_pmemfun c, a)) <$> l.
Proof. revert n. induction l as [|c l IH]; intros n; simpl; [done|]. by rewrite IH. Qed.

Lemma rebound_shape new n (l : list connection) :
  (λ c, (getdest c, m_pmemfun c)) <$> rebound new n l
  = (λ c, (new, m_pmemfun c)) <$> l.
Proof. revert n. induction l as [|c l IH]; intros n; simpl; [done|]. by rewrite IH. Qed.

Lemma rebound_memfun new n (l : list connection) :
  m_pmemfun <$> rebound new n l = m_pmemfun <$> l.
Proof. revert n. induction l as [|c l IH]; intros n; simpl; [done|]. by rewrite IH. Qed.

Lemma targeting_rebound_other old new n (l : list connection) :
  old ≠ new → targeting old (rebound new n l) = [].
Proof.
  intros Hne. apply targeting_none. intros c Hc.
  apply rebound_elem in Hc as [-> _]. done.
Qed.

Lemma targeting_rebound_same new n (l : list connection) :
  targeting new (rebound new n l) = rebound new n l.
Proof.
  unfold targeting. revert n. induction l as [|c l IH]; intros n; simpl; [done|].
  rewrite filter_cons_True by done. by rewrite IH.
Qed.

Lemma NoDup_with_fresh (l : list connection) new n k :
  NoDup (conn_id <$> l) →
  (∀ c, c ∈ l → conn_id c < n) →
  NoDup (conn_id <$> (l ++ rebound new n k)).
Proof.
  intros Hnd Hlt. rewrite fmap_app, rebound_ids. apply NoDup_app.
  split; [done|]. split; [|apply NoDup_seq].
  intros x Hx Hseq. apply list_elem_of_fmap in Hx as (c & -> & Hc).
  apply elem_of_seq in Hseq. specialize (Hlt c Hc). lia.
Qed.

Lemma slot_duplicate_loop_spec old new :
  old ≠ new →
  ∀ fuel visited remaining next,
    NoDup (conn_id <$> (visited ++ remaining)) →
    (∀ c, c ∈ visited ++ remaining → conn_id c < next) →
    length remaining + length (targeting old remaining) < fuel →
    slot_duplicate_loop fuel old new (begin remaining) (visited ++ remaining) next
    = Ok (visited ++ remaining ++ rebound new next (targeting old remaining),
          next + length (targeting old remaining)).
Proof.
  intros Hne. induction fuel as [|fuel IH]; intros visited remaining next Hnd Hlt Hfuel;
    [lia|].
  destruct remaining as [|c rest]; simpl.
  { by rewrite Nat.add_0_r. }
  rewrite node_at_middle by done.
  destruct (decide (getdest c = old)) as [Hc|Hc].
  - assert (Hnd' : NoDup (conn_id <$> ((visited ++ [c]) ++ rest ++ [duplicate c new next]))).
    { replace ((visited ++ [c]) ++ rest ++ [duplicate c new next])
        with ((visited ++ c :: rest) ++ rebound new next [c])
        by (by rewrite <- !app_assoc).
      by apply NoDup_with_fresh. }
    replace ((visited ++ c :: rest) ++ [duplicate c new next])
      with (visited ++ c :: (rest ++ [duplicate c new next]))
      by (by rewrite <- app_assoc).
    rewrite node_at_middle
      by (by rewrite <- (app_assoc visited [c]) in Hnd').
    replace (visited ++ c :: (rest ++ [duplicate c new next]))
      with ((visited ++ [c]) ++ (rest ++ [duplicate c new next]))
      by (by rewrite <- app_assoc).
    unfold targeting in *. rewrite filter_cons_True in * by done. simpl in *.
    rewrite IH; try done.
    + rewrite filter_app, filter_cons_False, filter_nil, app_nil_r
        by (simpl; unfold getdest; simpl; congruence).
      f_equal. f_equal; [|lia]. by rewrite <- !app_assoc.
    + intros x Hx. rewrite app_assoc in Hx.
      apply elem_of_app in Hx as [Hx|Hx].
      * rewrite <- app_assoc in Hx. simpl in Hx. specialize (Hlt x Hx). lia.
      * apply list_elem_of_singleton in Hx as ->. simpl. lia.
    + rewrite filter_app, filter_cons_False, filter_nil, app_nil_r
        by (simpl; unfold getdest; simpl; congruence).
      rewrite length_app. simpl. lia.
  - rewrite node_at_middle by done.
    unfold targeting in *. rewrite filter_cons_False in * by done. simpl in *.
    replace (visited ++ c :: rest) with ((visited ++ [c]) ++ rest)
      by (by rewrite <- app_assoc).
    rewrite IH; try done.
    + by rewrite <- !app_assoc.
    + by rewrite <- app_assoc.
    + intros x Hx. rewrite <- app_assoc in Hx. by apply Hlt.
    + lia.
Qed.

Lemma slot_duplicate_spec fuel this old new l st :
  m_connected_slots st !! this = Some l →
  old ≠ new →
  NoDup (conn_id <$> l) →
  (∀ c, c ∈ l → conn_id c < next_conn st) →
  2 * length l < fuel →
  slot_duplicate fuel this old new st =
    Ok (State (<[this := l ++ rebound new (next_conn st) (targeting old l)]>
                 (m_connected_slots st))
              (m_senders st)
              (next_conn st + length (targeting old l))).
Proof.
  intros Hl Hne Hnd Hlt Hfuel. unfold slot_duplicate. rewrite Hl.
  pose proof (length_filter (λ c, getdest c = old) l) as Hlen.
  pose proof (slot_duplicate_loop_spec old new Hne fuel [] l (next_conn st)) as H.
  simpl in H. rewrite H; try done.
  unfold targeting. lia.
Qed.

(** C8 (amended). [slot_duplicate this old new], for [old ≠ new], appends
    to the list of [this] one rebound duplicate per connection whose
    destination is [old], in the order of the originals, each with
    destination [new] and the member function of its original; it changes
    no [m_senders] set, so [new] is not registered by this operation. *)
Theorem slot_duplicate_appends_without_registering fuel this old new l st :
  m_connected_slots st !! this = Some l →
  old ≠ new →
  NoDup (conn_id <$> l) →
  (∀ c, c ∈ l → conn_id c < next_conn st) →
  2 * length l < fuel →
  ∃ st', slot_duplicate fuel this old new st = Ok st' ∧
    m_connected_slots st' !! this
      = Some (l ++ rebound new (next_conn st) (targeting old l)) ∧
    (λ c, (getdest c, m_pmemfun c)) <$> rebound new (next_conn st) (targeting old l)
      = (λ c, (new, m_pmemfun c)) <$> targeting old l ∧
    (∀ e, e ≠ this → m_connected_slots st' !! e = m_connected_slots st !! e) ∧
    m_senders st' = m_senders st.
Proof.
  intros Hl Hne Hnd Hlt Hfuel.
  rewrite (slot_duplicate_spec fuel this old new l st) by done.
  eexists. split; [done|]. simpl. split; [by rewrite lookup_insert_eq|].
  split; [apply rebound_shape|]. split; [|done].
  intros e He. by rewrite lookup_insert_ne.
Qed.

(** * slot_duplicate onto the same receiver *)

Lemma slot_duplicate_loop_same_target t :
  ∀ fuel pre mid m post next,
    getdest m = t →
    NoDup (conn_id <$> (pre ++ mid ++ m :: post)) →
    (∀ c, c ∈ pre ++ mid ++ m :: post → conn_id c < next) →
    slot_duplicate_loop fuel t t (begin (mid ++ m :: post))
      (pre ++ mid ++ m :: post) next = OutOfFuel.
Proof.
  induction fuel as [|fuel IH]; intros pre mid m post next Hm Hnd Hlt; [done|].
  assert (Hfresh : ∀ x, NoDup (conn_id <$>
            ((pre ++ mid ++ m :: post) ++ [duplicate x t next]))).
  { intros x. change [duplicate x t next] with (rebound t next [x]).
    by apply NoDup_with_fresh. }
  assert (Hlt' : ∀ x c, c ∈ (pre ++ mid ++ m :: post) ++ [duplicate x t next] →
                        conn_id c < S next).
  { intros x c Hc. apply elem_of_app in Hc as [Hc|Hc].
    - specialize (Hlt c Hc). lia.
    - apply list_elem_of_singleton in Hc as ->. simpl. lia. }
  destruct mid as [|x mid]; simpl in *.
  - rewrite node_at_middle by done. rewrite decide_True by done.
    specialize (Hfresh m). specialize (Hlt' m).
    replace ((pre ++ m :: post) ++ [duplicate m t next])
      with (pre ++ m :: post ++ [duplicate m t next]) in *
      by (by rewrite <- app_assoc).
    rewrite node_at_middle by done.
    replace (pre ++ m :: post ++ [duplicate m t next])
      with ((pre ++ [m]) ++ post ++ duplicate m t next :: []) in *
      by (by rewrite <- app_assoc).
    by apply IH.
  - rewrite node_at_middle by done.
    destruct (decide (getdest x = t)) as [Hx|Hx].
    + specialize (Hfresh x). specialize (Hlt' x).
      replace ((pre ++ x :: mid ++ m :: post) ++ [duplicate x t next])
        with (pre ++ x :: mid ++ m :: (post ++ [duplicate x t next])) in *
        by (rewrite <- !app_assoc; simpl; by rewrite <- !app_assoc).
      rewrite node_at_middle by done.
      replace (pre ++ x :: mid ++ m :: (post ++ [duplicate x t next]))
        with ((pre ++ [x]) ++ mid ++ m :: (post ++ [duplicate x t next])) in *
        by (by rewrite <- app_assoc).
      by apply IH.
    + rewrite node_at_middle by done.
      replace (pre ++ x :: mid ++ m :: post)
        with ((pre ++ [x]) ++ mid ++ m :: post) in *
        by (by rewrite <- app_assoc).
      by apply IH.
Qed.

(** X20. With [oldtarget = newtarget] and at least one connection to it, the
    walk keeps meeting the duplicates it has just appended: no amount of fuel
    lets [slot_duplicate] return. *)
Lemma slot_duplicate_same_target_never_returns this t l st :
  m_connected_slots st !! this = Some l →
  NoDup (conn_id <$> l) →
  (∀ c, c ∈ l → conn_id c < next_conn st) →
  (∃ c, c ∈ l ∧ getdest c = t) →
  ∀ fuel, slot_duplicate fuel this t t st = OutOfFuel.
Proof.
  intros Hl Hnd Hlt (c & Hc & Ht) fuel. unfold slot_duplicate. rewrite Hl.
  apply list_elem_of_split in Hc as (l1 & l2 & ->).
  pose proof (slot_duplicate_loop_same_target t fuel [] l1 c l2 (next_conn st))
    as H. simpl in H. by rewrite H.
Qed.

(** * Copying a receiver *)

Lemma has_slots_copy_loop_spec fuel hs this senders :
  hs ≠ this →
  NoDup senders →
  ∀ st s0,
    m_senders st !! this = Some s0 →
    (∀ e, e ∈ senders → copy_ready fuel st e) →
    ∃ st', has_slots_copy_loop fuel hs this senders st = Ok st' ∧
      m_senders st' = <[this := list_to_set senders ∪ s0]> (m_senders st) ∧
      next_conn st ≤ next_conn st' ∧
      (∀ e, e ∈ senders → ∃ l n,
         m_connected_slots st !! e = Some l ∧
         (next_conn st ≤ n ∧ n + length (targeting hs l) ≤ next_conn st') ∧
         m_connected_slots st' !! e = Some (l ++ rebound this n (targeting hs l))) ∧
      (∀ e, e ∉ senders → m_connected_slots st' !! e = m_connected_slots st !! e).
Proof.
  intros Hne. induction 1 as [|s rest Hs Hnd IH]; intros st s0 Hthis Hready; simpl.
  - exists st. split; [done|]. split.
    { rewrite union_empty_l_L. by rewrite insert_id. }
    split; [done|]. split; [|done].
    intros e He. by apply elem_of_nil in He.
  - destruct (Hready s) as (l & Hl & Hndl & Hlt & Hfuel); [left|].
    rewrite (slot_duplicate_spec fuel s hs this l st) by done. simpl.
    set (st2 := State _ _ _).
    destruct (IH st2 ({[s]} ∪ s0)) as (st' & Hloop & Hms & Hn & Hin & Hout).
    { subst st2. simpl. by rewrite lookup_alter_eq, Hthis. }
    { intros e He. destruct (Hready e) as (le & Hle & Hndle & Hlte & Hfe); [by right|].
      exists le. subst st2. simpl. split.
      - rewrite lookup_insert_ne; [done|]. intros ->. done.
      - split; [done|]. split; [|done]. intros c Hc. specialize (Hlte c Hc). lia. }
    exists st'. split; [done|]. split.
    { rewrite Hms. subst st2. simpl.
      apply map_eq. intros r. destruct (decide (r = this)) as [->|Hr].
      - rewrite !lookup_insert_eq. f_equal. set_solver.
      - rewrite !lookup_insert_ne by done. by rewrite lookup_alter_ne. }
    split.
    { subst st2. simpl in Hn. lia. }
    split.
    + intros e He. apply elem_of_cons in He as [->|He].
      * exists l, (next_conn st). split; [done|].
        split; [subst st2; simpl in Hn; lia|].
        rewrite Hout by done. subst st2. simpl. by rewrite lookup_insert_eq.
      * destruct (Hin e He) as (le & n & Hle & Hnle & Hle').
        exists le, n. subst st2. simpl in *.
        rewrite lookup_insert_ne in Hle by (intros ->; done).
        split; [done|]. split; [lia|done].
    + intros e He. apply not_elem_of_cons in He as [Hes He].
      rewrite Hout by done. subst st2. simpl. by rewrite lookup_insert_ne.
Qed.

Lemma has_slots_copy_spec fuel hs this s st :
  m_senders st !! hs = Some s →
  m_senders st !! this = None →
  (∀ e, e ∈ s → copy_ready fuel st e) →
  ∃ st', has_slots_copy fuel hs this st = Ok st' ∧
    m_senders st' = <[this := s]> (m_senders st) ∧
    (∀ e, e ∈ s → ∃ l n,
       m_connected_slots st !! e = Some l ∧
       (next_conn st ≤ n ∧ n + length (targeting hs l) ≤ next_conn st') ∧
       m_connected_slots st' !! e = Some (l ++ rebound this n (targeting hs l))) ∧
    (∀ e, e ∉ s → m_connected_slots st' !! e = m_connected_slots st !! e) ∧
    next_conn st ≤ next_conn st'.
Proof.
  intros Hhs Hthis Hready. unfold has_slots_copy. rewrite Hhs.
  assert (hs ≠ this) as Hne by (intros ->; congruence).
  destruct (has_slots_copy_loop_spec fuel hs this (elements s) Hne
              (NoDup_elements s) (has_slots_new this st) ∅)
    as (st' & Hloop & Hms & Hn & Hin & Hout).
  { simpl. by rewrite lookup_insert_eq. }
  { intros e He. apply Hready. by apply elem_of_elements. }
  exists st'. split; [done|]. split.
  { rewrite Hms. simpl. rewrite insert_insert_eq.
    by rewrite union_empty_r_L, list_to_set_elements_L. }
  split; [|split; [|done]].
  - intros e He. apply Hin. by apply elem_of_elements.
  - intros e He. apply Hout. by rewrite elem_of_elements.
Qed.

Lemma disconnect_one e r r' l st :
  m_connected_slots st !! e = Some l →
  is_Some (m_senders st !! r) →
  r ≠ r' →
  ∃ st' l', disconnect e r st = Ok st' ∧
    m_connected_slots st' !! e = Some l' ∧
    targeting r l' = tail (targeting r l) ∧
    targeting r' l' = targeting r' l ∧
    m_senders st' !! r' = m_senders st !! r'.
Proof.
  intros Hl [s Hs] Hne. unfold disconnect. rewrite Hl.
  destruct (disconnect_loop r l) as [l0|] eqn:E.
  - apply disconnect_loop_Some_inv in E as (l1 & c & l2 & -> & -> & Hc & Hl1).
    unfold signal_disconnect. simpl. rewrite Hs.
    eexists _, (l1 ++ l2). split; [done|]. simpl.
    rewrite lookup_insert_eq, lookup_insert_ne by done.
    split; [done|]. split; [|split; [|done]].
    + rewrite !targeting_app, (targeting_none r l1) by done. simpl.
      unfold targeting. by rewrite filter_cons_True.
    + rewrite !targeting_app. f_equal. unfold targeting.
      rewrite filter_cons_False; [done|]. congruence.
  - exists st, l. do 2 (split; [done|]).
    by rewrite (disconnect_loop_None_inv r l E).
Qed.

Section ReceiverCopy.
Context {Args : Type}.
Variable body : nat → nat → Args → state → result state.

Lemma has_slots_copy_full fuel hs this s st :
  m_senders st !! hs = Some s →
  m_senders st !! this = None →
  (∀ e, e ∈ s → copy_ready fuel st e) →
  (∀ e l c, e ∈ s → m_connected_slots st !! e = Some l → c ∈ l →
     is_Some (m_senders st !! getdest c)) →
  ∃ st', has_slots_copy fuel hs this st = Ok st' ∧
    m_senders st' = <[this := s]> (m_senders st) ∧
    ∀ e, e ∈ s → ∃ l n,
      m_connected_slots st !! e = Some l ∧
      m_connected_slots st' !! e = Some (l ++ rebound this n (targeting hs l)) ∧
      targeting this l = [] ∧
      NoDup (conn_id <$> (l ++ rebound this n (targeting hs l))) ∧
      attached e (l ++ rebound this n (targeting hs l)) st'.
Proof.
  intros Hhs Hthis Hready Hlive.
  destruct (has_slots_copy_spec fuel hs this s st Hhs Hthis Hready)
    as (st' & Hcopy & Hms & Hin & _).
  exists st'. split; [done|]. split; [done|].
  intros e He. destruct (Hin e He) as (l & n & Hl & Hn & Hl').
  destruct (Hready e He) as (l0 & Hl0 & Hnd & Hlt & _).
  rewrite Hl in Hl0. inversion Hl0; subst l0.
  exists l, n. split; [done|]. split; [done|]. split.
  { apply targeting_none. intros c Hc Heq.
    destruct (Hlive e l c He Hl Hc) as [x Hx]. congruence. }
  split.
  { apply NoDup_with_fresh; [done|]. intros c Hc. specialize (Hlt c Hc). lia. }
  split; [done|]. intros c Hc. rewrite Hms.
  apply elem_of_app in Hc as [Hc|Hc].
  - destruct (decide (getdest c = this)) as [->|Hne].
    + rewrite lookup_insert_eq. eauto.
    + rewrite lookup_insert_ne by done. by apply (Hlive e l).
  - apply rebound_elem in Hc as [-> _]. rewrite lookup_insert_eq. eauto.
Qed.

(** X26. Copy-constructing a receiver [this] from [hs], whose [m_senders] is
    [s], returns normally with [this] and [hs] both registered with the
    signals of [s].  For each signal of [s], with new list [l']: the
    connections to [hs] are the ones from before and the connections to
    [this] carry the same member functions in the same order; an [emit]
    calls every connection of [l'] and leaves the store that running these
    callables once each in order leaves; and [disconnect] of either receiver
    erases exactly its own first connection and leaves the connections and
    the [m_senders] set of the other as they are. *)
Theorem has_slots_copy_duplicates_relationship fuel hs this s st :
  m_senders st !! hs = Some s →
  m_senders st !! this = None →
  (∀ e, e ∈ s → copy_ready fuel st e) →
  (∀ e l c, e ∈ s → m_connected_slots st !! e = Some l → c ∈ l →
     is_Some (m_senders st !! getdest c)) →
  ∃ st', has_slots_copy fuel hs this st = Ok st' ∧
    m_senders st' !! hs = Some s ∧
    m_senders st' !! this = Some s ∧
    ∀ e, e ∈ s → ∃ l l',
      m_connected_slots st !! e = Some l ∧
      m_connected_slots st' !! e = Some l' ∧
      targeting hs l' = targeting hs l ∧
      m_pmemfun <$> targeting this l' = m_pmemfun <$> targeting hs l' ∧
      (∀ a fuel', keeps body a l' (attached e l') → length l' < fuel' →
         ∃ st'', emit body fuel' e a st' = Ok (calls_of a l', st'') ∧
                 run_calls body a l' st' = Ok st'') ∧
      (∃ st'' l'', disconnect e hs st' = Ok st'' ∧
         m_connected_slots st'' !! e = Some l'' ∧
         targeting hs l'' = tail (targeting hs l') ∧
         targeting this l'' = targeting this l' ∧
         m_senders st'' !! this = Some s) ∧
      (∃ st'' l'', disconnect e this st' = Ok st'' ∧
         m_connected_slots st'' !! e = Some l'' ∧
         targeting this l'' = tail (targeting this l') ∧
         targeting hs l'' = targeting hs l' ∧
         m_senders st'' !! hs = Some s).
Proof.
  intros Hhs Hthis Hready Hlive.
  assert (hs ≠ this) as Hne by (intros ->; congruence).
  destruct (has_slots_copy_full fuel hs this s st Hhs Hthis Hready Hlive)
    as (st' & Hcopy & Hms & Hin).
  assert (Hhs' : m_senders st' !! hs = Some s)
    by (by rewrite Hms, lookup_insert_ne).
  assert (Hthis' : m_senders st' !! this = Some s)
    by (by rewrite Hms, lookup_insert_eq).
  exists st'. do 3 (split; [done|]).
  intros e He. destruct (Hin e He) as (l & n & Hl & Hl' & Hnone & Hnd & Hatt).
  exists l, (l ++ rebound this n (targeting hs l)).
  do 2 (split; [done|]).
  assert (Hths : targeting hs (l ++ rebound this n (targeting hs l)) = targeting hs l).
  { by rewrite targeting_app, targeting_rebound_other, app_nil_r. }
  split; [done|]. split.
  { rewrite Hths, targeting_app, Hnone, targeting_rebound_same. simpl.
    apply rebound_memfun. }
  split.
  { intros a fuel' Hk Hfuel'.
    destruct (emit_runs body e a (attached e (l ++ rebound this n (targeting hs l)))
                (l ++ rebound this n (targeting hs l)) fuel' st')
      as (st'' & Hemit & Hrun & _); try done. by exists st''. }
  split.
  - destruct (disconnect_one e hs this _ st' Hl') as (st'' & l'' & ? & ? & ? & ? & Hs'');
      [by eexists|done|].
    exists st'', l''. do 4 (split; [done|]). by rewrite Hs''.
  - destruct (disconnect_one e this hs _ st' Hl') as (st'' & l'' & ? & ? & ? & ? & Hs'');
      [by eexists|done|].
    exists st'', l''. do 4 (split; [done|]). by rewrite Hs''.
Qed.

(** C10. When a receiver [hs] is copied to [this], each signal of
    [hs.m_senders] gets the rebound duplicates appended after its whole
    old list [l], in the order of their originals; a later [emit] on such
    a signal first makes every call of the old list and only then the
    calls on [this]. *)
Theorem has_slots_copy_appends_at_tail fuel hs this s st :
  m_senders st !! hs = Some s →
  m_senders st !! this = None →
  (∀ e, e ∈ s → copy_ready fuel st e) →
  (∀ e l c, e ∈ s → m_connected_slots st !! e = Some l → c ∈ l →
     is_Some (m_senders st !! getdest c)) →
  ∃ st', has_slots_copy fuel hs this st = Ok st' ∧
    ∀ e, e ∈ s → ∃ l n,
      m_connected_slots st !! e = Some l ∧
      m_connected_slots st' !! e = Some (l ++ rebound this n (targeting hs l)) ∧
      ∀ a fuel',
        keeps body a (l ++ rebound this n (targeting hs l))
              (attached e (l ++ rebound this n (targeting hs l))) →
        length l + length (targeting hs l) < fuel' →
        ∃ st'', emit body fuel' e a st'
          = Ok (calls_of a l ++ ((λ c, (this, m_pmemfun c, a)) <$> targeting hs l),
                st'').
Proof.
  intros Hhs Hthis Hready Hlive.
  destruct (has_slots_copy_full fuel hs this s st Hhs Hthis Hready Hlive)
    as (st' & Hcopy & Hms & Hin).
  exists st'. split; [done|].
  intros e He. destruct (Hin e He) as (l & n & Hl & Hl' & Hnone & Hnd & Hatt).
  exists l, n. do 2 (split; [done|]).
  intros a fuel' Hk Hfuel'.
  destruct (emit_steady body e a (attached e (l ++ rebound this n (targeting hs l)))
              (l ++ rebound this n (targeting hs l)) fuel' st')
    as (st'' & Hemit & _); try done.
  { by rewrite length_app, rebound_length. }
  exists st''. by rewrite Hemit, calls_of_app, calls_of_rebound.
Qed.
End ReceiverCopy.

(** * Copying a signal *)

Lemma cloned_ids n (l : list connection) :
  conn_id <$> cloned n l = seq n (length l).
Proof. revert n. induction l as [|c l IH]; intros n; simpl; [done|]. by rewrite IH. Qed.

Lemma cloned_shape n (l : list connection) :
  (λ c, (getdest c, m_pmemfun c)) <$> cloned n l
  = (λ c, (getdest c, m_pmemfun c)) <$> l.
Proof. revert n. induction l as [|c l IH]; intros n; simpl; [done|]. by rewrite IH. Qed.

Lemma calls_of_cloned {Args} (a : Args) n (l : list connection) :
  calls_of a (cloned n l) = calls_of a l.
Proof. revert n. induction l as [|c l IH]; intros n; simpl; [done|]. by rewrite IH. Qed.

Lemma cloned_elem n (l : list connection) c' :
  c' ∈ cloned n l →
  ∃ c, c ∈ l ∧ m_pobject c' = m_pobject c ∧ m_pmemfun c' = m_pmemfun c ∧
       n ≤ conn_id c'.
Proof.
  revert n. induction l as [|x l IH]; intros n; simpl; intros H.
  - by apply elem_of_nil in H.
  - apply elem_of_cons in H as [->|H].
    + exists x. split; [left|]. simpl. done.
    + apply IH in H as (c & Hc & ? & ? & ?). exists c.
      split; [by right|]. split; [done|]. split; [done|lia].
Qed.

Lemma signal_copy_loop_spec this src :
  ∀ st acc,
    m_connected_slots st !! this = Some acc →
    (∀ c, c ∈ src → is_Some (m_senders st !! getdest c)) →
    ∃ st', signal_copy_loop this src st = Ok st' ∧
      m_connected_slots st'
        = <[this := acc ++ cloned (next_conn st) src]> (m_connected_slots st) ∧
      next_conn st' = next_conn st + length src ∧
      ∀ r, m_senders st' !! r =
           (λ ms, if decide (r ∈ getdest <$> src) then {[this]} ∪ ms else ms)
             <$> m_senders st !! r.
Proof.
  induction src as [|c rest IH]; intros st acc Hacc Hlive; simpl.
  - exists st. split; [done|]. split.
    { by rewrite app_nil_r, insert_id. }
    split; [lia|]. intros r. by destruct (m_senders st !! r).
  - destruct (Hlive c) as [ms Hms]; [left|].
    unfold signal_connect. rewrite Hms. simpl.
    set (st2 := State _ _ _).
    destruct (IH st2 (acc ++ [clone c (next_conn st)]))
      as (st' & Hloop & Hcs & Hn & Hsend).
    { subst st2. simpl. by rewrite lookup_alter_eq, Hacc. }
    { intros x Hx. subst st2. simpl.
      destruct (decide (getdest c = getdest x)) as [->|Hne].
      - rewrite lookup_insert_eq. eauto.
      - rewrite lookup_insert_ne by done. apply Hlive. by right. }
    exists st'. split; [done|]. split.
    { rewrite Hcs. subst st2. simpl. apply map_eq. intros e.
      destruct (decide (e = this)) as [->|He].
      - rewrite !lookup_insert_eq. by rewrite <- app_assoc.
      - rewrite !lookup_insert_ne by done. by rewrite lookup_alter_ne. }
    split.
    { rewrite Hn. subst st2. simpl. lia. }
    intros r. rewrite Hsend. subst st2. simpl.
    destruct (decide (r = getdest c)) as [->|Hr].
    + rewrite lookup_insert_eq, Hms. simpl. f_equal.
      rewrite (decide_True (P := getdest c ∈ getdest c :: _)) by left.
      case_decide; set_solver.
    + rewrite lookup_insert_ne by done.
      destruct (m_senders st !! r) as [x|]; simpl; [|done]. f_equal.
      destruct (decide (r ∈ getdest <$> rest)) as [Hin|Hin].
      * rewrite decide_True; [done|]. by right.
      * rewrite decide_False; [done|].
        intros H. apply elem_of_cons in H as [?|?]; done.
Qed.

Lemma signal_copy_spec s this l st :
  m_connected_slots st !! s = Some l →
  m_connected_slots st !! this = None →
  (∀ c, c ∈ l → is_Some (m_senders st !! getdest c)) →
  ∃ st', signal_copy s this st = Ok st' ∧
    m_connected_slots st'
      = <[this := cloned (next_conn st) l]> (m_connected_slots st) ∧
    next_conn st' = next_conn st + length l ∧
    ∀ r, m_senders st' !! r =
         (λ ms, if decide (r ∈ getdest <$> l) then {[this]} ∪ ms else ms)
           <$> m_senders st !! r.
Proof.
  intros Hl Hthis Hlive. unfold signal_copy. rewrite Hl.
  destruct (signal_copy_loop_spec this l (signals_new this st) [])
    as (st' & Hloop & Hcs & Hn & Hsend); [simpl; by rewrite lookup_insert_eq|done|].
  exists st'. split; [done|]. split; [|done].
  rewrite Hcs. simpl. by rewrite insert_insert_eq.
Qed.

Lemma keeps_same_shape {Args} (body : nat → nat → Args → state → result state)
    (a : Args) (l l' : list connection) (P : state → Prop) :
  (∀ c', c' ∈ l' → ∃ c, c ∈ l ∧ m_pobject c' = m_pobject c ∧
                        m_pmemfun c' = m_pmemfun c) →
  keeps body a l P → keeps body a l' P.
Proof.
  intros Hshape Hk c' st Hc' HP.
  destruct (Hshape c' Hc') as (c & Hc & -> & ->). by apply Hk.
Qed.

Section SignalCopy.
Context {Args : Type}.
Variable body : nat → nat → Args → state → result state.

(** C6. Copy-constructing a signal [this] from [s], whose list is [l],
    returns normally; [s] keeps [l]; the list of [this] is [l] cloned
    connection by connection: same destinations and member functions in
    the same order, held in newly allocated connection objects; [this] is
    inserted into the [m_senders] set of every destination of [l] and of
    no other receiver.  Emitting on [s] and then on [this] makes the same
    calls, [calls_of a l], once each. *)
Theorem signal_copy_duplicates_connections s this l st :
  m_connected_slots st !! s = Some l →
  m_connected_slots st !! this = None →
  NoDup (conn_id <$> l) →
  (∀ c, c ∈ l → conn_id c < next_conn st) →
  (∀ c, c ∈ l → is_Some (m_senders st !! getdest c)) →
  ∃ st' l', signal_copy s this st = Ok st' ∧
    m_connected_slots st' !! s = Some l ∧
    m_connected_slots st' !! this = Some l' ∧
    (λ c, (getdest c, m_pmemfun c)) <$> l' = (λ c, (getdest c, m_pmemfun c)) <$> l ∧
    (∀ c c', c ∈ l → c' ∈ l' → conn_id c ≠ conn_id c') ∧
    (∀ r, m_senders st' !! r =
          (λ ms, if decide (r ∈ getdest <$> l) then {[this]} ∪ ms else ms)
            <$> m_senders st !! r) ∧
    (∀ a fuel,
       keeps body a l (λ x, attached s l x ∧ attached this l' x) →
       length l < fuel →
       ∃ st1 st2,
         emit body fuel s a st' = Ok (calls_of a l, st1) ∧
         emit body fuel this a st1 = Ok (calls_of a l, st2)).
Proof.
  intros Hl Hthis Hnd Hlt Hlive.
  assert (s ≠ this) as Hne by (intros ->; congruence).
  destruct (signal_copy_spec s this l st Hl Hthis Hlive)
    as (st' & Hcopy & Hcs & Hn & Hsend).
  exists st', (cloned (next_conn st) l). split; [done|].
  assert (Hs' : m_connected_slots st' !! s = Some l)
    by (by rewrite Hcs, lookup_insert_ne).
  assert (Hthis' : m_connected_slots st' !! this = Some (cloned (next_conn st) l))
    by (by rewrite Hcs, lookup_insert_eq).
  do 2 (split; [done|]). split; [apply cloned_shape|]. split.
  { intros c c' Hc Hc' Heq. apply cloned_elem in Hc' as (_ & _ & _ & _ & Hge).
    specialize (Hlt c Hc). lia. }
  split; [done|].
  intros a fuel Hk Hfuel.
  assert (Hlive' : ∀ c, c ∈ l → is_Some (m_senders st' !! getdest c)).
  { intros c Hc. rewrite Hsend. destruct (Hlive c Hc) as [ms ->]. simpl. eauto. }
  set (P := λ x, attached s l x ∧ attached this (cloned (next_conn st) l) x).
  assert (HP : P st').
  { split; (split; [done|]); [done|].
    intros c' Hc'. apply cloned_elem in Hc' as (c & Hc & Hobj & _).
    unfold getdest. rewrite Hobj. by apply Hlive'. }
  destruct (emit_steady body s a P l fuel st') as (st1 & He1 & HP1); try done.
  { by intros x [? _]. }
  destruct (emit_steady body this a P (cloned (next_conn st) l) fuel st1)
    as (st2 & He2 & _); try done.
  { by intros x [_ ?]. }
  { rewrite cloned_ids. apply NoDup_seq. }
  { apply (keeps_same_shape body a l); [|done].
    intros c' Hc'. apply cloned_elem in Hc' as (c & ? & ? & ? & _). by exists c. }
  { replace (length (cloned (next_conn st) l)) with (length l); [done|].
    rewrite <- (length_fmap conn_id (cloned _ _)), cloned_ids. by rewrite length_seq. }
  exists st1, st2. split; [done|]. by rewrite He2, calls_of_cloned.
Qed.
End SignalCopy.

(** * The cross-reference relation *)

Lemma symmetric_empty : symmetric empty_state.
Proof.
  split.
  - intros e l c H. simpl in H. by rewrite lookup_empty in H.
  - intros r s e H. simpl in H. by rewrite lookup_empty in H.
Qed.

Lemma has_slots_new_symmetric this st :
  m_senders st !! this = None → symmetric st → symmetric (has_slots_new this st).
Proof.
  intros Hfresh [Hbr Hex]. split.
  - intros e l c Hl Hc. simpl in *. destruct (Hbr e l c Hl Hc) as (s & Hs & He).
    exists s. split; [|done]. rewrite lookup_insert_ne; [done|]. congruence.
  - intros r s e Hs. simpl in *.
    destruct (decide (this = r)) as [->|Hne].
    + rewrite lookup_insert_eq in Hs. inversion Hs; subst. split; [set_solver|].
      intros (l & c & Hl & Hc & Hr). destruct (Hbr e l c Hl Hc) as (s & Hs' & _).
      congruence.
    + rewrite lookup_insert_ne in Hs by done. by apply Hex.
Qed.

Lemma signals_new_symmetric this st :
  m_connected_slots st !! this = None → symmetric st → symmetric (signals_new this st).
Proof.
  intros Hfresh [Hbr Hex]. split.
  - intros e l c Hl Hc. simpl in *.
    destruct (decide (this = e)) as [->|Hne].
    + rewrite lookup_insert_eq in Hl. inversion Hl; subst. by apply elem_of_nil in Hc.
    + rewrite lookup_insert_ne in Hl by done. by apply (Hbr e l).
  - intros r s e Hs. simpl in *. rewrite (Hex r s e Hs).
    destruct (decide (this = e)) as [->|Hne].
    + rewrite lookup_insert_eq. split.
      * intros (l & c & Hl & _). congruence.
      * intros (l & c & Hl & Hc & _). inversion Hl; subst. by apply elem_of_nil in Hc.
    + by rewrite lookup_insert_ne.
Qed.

Lemma connect_symmetric this pclass pmemfun st :
  is_Some (m_connected_slots st !! this) →
  is_Some (m_senders st !! pclass) →
  symmetric st →
  ∃ st', connect this pclass pmemfun st = Ok st' ∧ symmetric st'.
Proof.
  intros [l Hl] [s Hs] [Hbr Hex]. unfold connect, signal_connect. rewrite Hl. simpl.
  rewrite Hs. eexists. split; [done|]. split.
  - intros e l' c Hl' Hc. simpl in *.
    assert (Hor : (∃ l0, m_connected_slots st !! e = Some l0 ∧ c ∈ l0) ∨
                  (e = this ∧ getdest c = pclass)).
    { destruct (decide (this = e)) as [->|Hne].
      - rewrite lookup_insert_eq in Hl'. inversion Hl'; subst.
        apply elem_of_app in Hc as [Hc|Hc]; [left; eauto|].
        apply list_elem_of_singleton in Hc as ->. by right.
      - rewrite lookup_insert_ne in Hl' by done. left; eauto. }
    destruct Hor as [(l0 & Hl0 & Hc0)|[-> Hd]].
    + destruct (Hbr e l0 c Hl0 Hc0) as (s0 & Hs0 & He).
      destruct (decide (pclass = getdest c)) as [Heq|Hne].
      * rewrite <- Heq, lookup_insert_eq. rewrite <- Heq, Hs in Hs0.
        inversion Hs0; subst. exists ({[this]} ∪ s0). split; [done|set_solver].
      * rewrite lookup_insert_ne by done. eauto.
    + rewrite Hd, lookup_insert_eq. exists ({[this]} ∪ s). split; [done|set_solver].
  - intros r s' e Hs'. simpl in *.
    assert (Hnew : (∃ l' c, <[this := l ++ [Conn (next_conn st) pclass pmemfun]]>
                       (m_connected_slots st) !! e = Some l' ∧ c ∈ l' ∧ getdest c = r)
                   ↔ (∃ l0 c, m_connected_slots st !! e = Some l0 ∧ c ∈ l0 ∧ getdest c = r)
                     ∨ (e = this ∧ r = pclass)).
    { destruct (decide (this = e)) as [->|Hne].
      - rewrite lookup_insert_eq. split.
        + intros (l' & c & Hl' & Hc & Hr). inversion Hl'; subst.
          apply elem_of_app in Hc as [Hc|Hc]; [left; eauto|].
          apply list_elem_of_singleton in Hc as ->. by right.
        + intros [(l0 & c & Hl0 & Hc & Hr)|[_ ->]].
          * rewrite Hl in Hl0. inversion Hl0; subst.
            eexists _, c.
            split; [done|]. split; [|done]. apply elem_of_app. by left.
          * eexists _, (Conn (next_conn st) pclass pmemfun).
            split; [done|]. split; [|done]. apply elem_of_app. right. left.
      - rewrite lookup_insert_ne by done. split; [by left|].
        intros [?|[-> _]]; done. }
    rewrite Hnew. clear Hnew.
    destruct (decide (pclass = r)) as [->|Hne].
    + rewrite lookup_insert_eq in Hs'. inversion Hs'; subst.
      rewrite elem_of_union, elem_of_singleton, (Hex r s e Hs). tauto.
    + rewrite lookup_insert_ne in Hs' by done. rewrite (Hex r s' e Hs').
      split; [by left|]. intros [?|[_ ->]]; done.
Qed.

Lemma targeting_nil_inv r (l : list connection) :
  targeting r l = [] → ∀ c, c ∈ l → getdest c ≠ r.
Proof.
  intros Hnil c Hc Hr.
  assert (c ∈ targeting r l) as Hin by (by apply list_elem_of_filter).
  rewrite Hnil in Hin. by apply elem_of_nil in Hin.
Qed.

(** [disconnect] keeps the relation when the receiver is connected to the
    signal at most once. *)
Lemma disconnect_symmetric e r l st :
  symmetric st →
  m_connected_slots st !! e = Some l →
  length (targeting r l) ≤ 1 →
  ∃ st', disconnect e r st = Ok st' ∧ symmetric st'.
Proof.
  intros [Hbr Hex] Hl Hlen. unfold disconnect. rewrite Hl.
  destruct (disconnect_loop r l) as [l'|] eqn:E; [|by exists st].
  apply disconnect_loop_Some_inv in E as (l1 & c & l2 & -> & -> & Hc & Hl1).
  assert (Hl2 : ∀ x, x ∈ l2 → getdest x ≠ r).
  { apply targeting_nil_inv. rewrite targeting_app, (targeting_none r l1) in Hlen by done.
    unfold targeting in *. rewrite filter_cons_True in Hlen by done. simpl in Hlen.
    destruct (filter _ l2); [done|simpl in Hlen; lia]. }
  assert (Hrest : ∀ x, x ∈ l1 ++ l2 → getdest x ≠ r).
  { intros x Hx. apply elem_of_app in Hx as [?|?]; auto. }
  destruct (Hbr e _ c Hl) as (s & Hs & Hes); [apply elem_of_app; right; left|].
  rewrite Hc in Hs. unfold signal_disconnect. simpl. rewrite Hs.
  eexists. split; [done|]. split.
  - intros e' l0 c0 Hl0 Hc0. simpl in *.
    destruct (decide (e = e')) as [<-|Hne].
    + rewrite lookup_insert_eq in Hl0. inversion Hl0; subst l0.
      rewrite lookup_insert_ne by (intros Heq; by apply (Hrest c0)).
      apply (Hbr e _ c0 Hl). apply elem_of_app in Hc0 as [?|?]; apply elem_of_app;
        [by left|right; by right].
    + rewrite lookup_insert_ne in Hl0 by done.
      destruct (Hbr e' l0 c0 Hl0 Hc0) as (s0 & Hs0 & He0).
      destruct (decide (r = getdest c0)) as [Heq|Hnr].
      * rewrite <- Heq in *. rewrite lookup_insert_eq. rewrite Hs in Hs0.
        inversion Hs0; subst. eexists. split; [done|]. set_solver.
      * rewrite lookup_insert_ne by done. eauto.
  - intros r' s' e' Hs'. simpl in *.
    destruct (decide (r = r')) as [<-|Hnr].
    + rewrite lookup_insert_eq in Hs'. inversion Hs'; subst s'.
      rewrite elem_of_difference, elem_of_singleton, (Hex r s e' Hs).
      destruct (decide (e = e')) as [<-|Hne].
      * rewrite lookup_insert_eq. split; [tauto|].
        intros (l0 & c0 & Hl0 & Hc0 & Hr0). inversion Hl0; subst.
        by apply Hrest in Hc0.
      * rewrite lookup_insert_ne by done. split; [tauto|]. intros H. split; [done|]. congruence.
    + rewrite lookup_insert_ne in Hs' by done. rewrite (Hex r' s' e' Hs').
      destruct (decide (e = e')) as [<-|Hne].
      * rewrite lookup_insert_eq. split.
        -- intros (l0 & c0 & Hl0 & Hc0 & Hr0). rewrite Hl in Hl0. inversion Hl0; subst.
           eexists _, c0. split; [done|]. split; [|done].
           apply elem_of_app in Hc0 as [?|Hc0]; apply elem_of_app; [by left|].
           apply elem_of_cons in Hc0 as [->|?]; [done|by right].
        -- intros (l0 & c0 & Hl0 & Hc0 & Hr0). inversion Hl0; subst.
           eexists _, c0. split; [done|]. split; [|done].
           apply elem_of_app in Hc0 as [?|?]; apply elem_of_app; [by left|right; by right].
      * by rewrite lookup_insert_ne.
Qed.

Lemma disconnect_all_loop_spec e (l : list connection) :
  ∀ st, (∀ c, c ∈ l → is_Some (m_senders st !! getdest c)) →
  ∃ st', disconnect_all_loop e l st = Ok st' ∧
    m_connected_slots st' = m_connected_slots st ∧
    next_conn st' = next_conn st ∧
    ∀ r, m_senders st' !! r =
         (λ s, if decide (r ∈ getdest <$> l) then s ∖ {[e]} else s)
           <$> m_senders st !! r.
Proof.
  induction l as [|c l IH]; intros st Hlive; simpl.
  - exists st. do 3 (split; [done|]). intros r. by destruct (m_senders st !! r).
  - destruct (Hlive c) as [s Hs]; [left|].
    unfold signal_disconnect. rewrite Hs. simpl.
    set (st1 := set_senders _ _ _).
    destruct (IH st1) as (st' & Hloop & Hcs & Hn & Hsend).
    { intros x Hx. subst st1. simpl.
      destruct (decide (getdest c = getdest x)) as [->|Hne].
      - rewrite lookup_insert_eq. eauto.
      - rewrite lookup_insert_ne by done. apply Hlive. by right. }
    exists st'. do 3 (split; [done|]).
    intros r. rewrite Hsend. subst st1. simpl.
    destruct (decide (r = getdest c)) as [->|Hr].
    + rewrite lookup_insert_eq, Hs. simpl. f_equal.
      rewrite (decide_True (P := getdest c ∈ getdest c :: _)) by left.
      case_decide; set_solver.
    + rewrite lookup_insert_ne by done.
      destruct (m_senders st !! r) as [x|]; simpl; [|done]. f_equal.
      destruct (decide (r ∈ getdest <$> l)) as [Hin|Hin].
      * rewrite decide_True; [done|]. by right.
      * rewrite decide_False; [done|].
        intros H. apply elem_of_cons in H as [?|?]; done.
Qed.

Lemma disconnect_all_symmetric e st :
  symmetric st →
  is_Some (m_connected_slots st !! e) →
  ∃ st', disconnect_all e st = Ok st' ∧ symmetric st' ∧
         m_connected_slots st' = <[e := []]> (m_connected_slots st).
Proof.
  intros [Hbr Hex] [l Hl]. unfold disconnect_all. rewrite Hl.
  destruct (disconnect_all_loop_spec e l st) as (st1 & Hloop & Hcs & Hn & Hsend).
  { intros c Hc. destruct (Hbr e l c Hl Hc) as (s & -> & _). eauto. }
  rewrite Hloop. simpl. eexists. split; [done|]. split; [|by simpl; rewrite Hcs].
  split.
  - intros e' l0 c0 Hl0 Hc0. simpl in *. rewrite Hcs in Hl0.
    destruct (decide (e = e')) as [<-|Hne].
    + rewrite lookup_insert_eq in Hl0. inversion Hl0; subst. by apply elem_of_nil in Hc0.
    + rewrite lookup_insert_ne in Hl0 by done.
      destruct (Hbr e' l0 c0 Hl0 Hc0) as (s0 & Hs0 & He0).
      rewrite Hsend, Hs0. simpl. eexists. split; [done|].
      case_decide; set_solver.
  - intros r s' e' Hs'. simpl in *. rewrite Hcs. rewrite Hsend in Hs'.
    destruct (m_senders st !! r) as [s|] eqn:Hs; [|done]. simpl in Hs'.
    inversion Hs'; subst s'. clear Hs'.
    destruct (decide (e = e')) as [<-|Hne].
    + rewrite lookup_insert_eq. split.
      * intros Hin. exfalso. destruct (decide (r ∈ getdest <$> l)) as [Hr|Hr];
          [set_solver|].
        apply (Hex r s e Hs) in Hin as (l0 & c0 & Hl0 & Hc0 & Hr0).
        rewrite Hl in Hl0. inversion Hl0; subst. apply Hr.
        by apply list_elem_of_fmap_2.
      * intros (l0 & c0 & Hl0 & Hc0 & _). inversion Hl0; subst.
        by apply elem_of_nil in Hc0.
    + rewrite lookup_insert_ne by done. rewrite <- (Hex r s e' Hs).
      case_decide; set_solver.
Qed.

Lemma signal_destroy_symmetric e st :
  symmetric st →
  is_Some (m_connected_slots st !! e) →
  ∃ st', signal_destroy e st = Ok st' ∧ symmetric st'.
Proof.
  intros Hsym Hlive. unfold signal_destroy.
  destruct (disconnect_all_symmetric e st Hsym Hlive) as (st1 & -> & [Hbr Hex] & Hcs).
  simpl. eexists. split; [done|]. split.
  - intros e' l c Hl Hc. simpl in *.
    destruct (decide (e = e')) as [<-|Hne].
    + by rewrite lookup_delete_eq in Hl.
    + rewrite lookup_delete_ne in Hl by done. by apply (Hbr e' l).
  - intros r s e' Hs. simpl in *. rewrite (Hex r s e' Hs).
    destruct (decide (e = e')) as [<-|Hne].
    + rewrite lookup_delete_eq, Hcs, lookup_insert_eq. split.
      * intros (l & c & Hl & Hc & _). inversion Hl; subst. by apply elem_of_nil in Hc.
      * intros (l & c & Hl & _). done.
    + by rewrite lookup_delete_ne.
Qed.

Lemma has_slots_destroy_symmetric this st :
  symmetric st →
  is_Some (m_senders st !! this) →
  ∃ st', has_slots_destroy this st = Ok st' ∧ symmetric st'.
Proof.
  intros [Hbr Hex] [s Hs].
  destruct (has_slots_destroy_spec this s st Hs) as (st' & Hd & Hms & _ & Hcs).
  { intros e He. apply (Hex this s e Hs) in He as (l & _ & -> & _). eauto. }
  exists st'. split; [done|].
  assert (Hold : ∀ e l' c, m_connected_slots st' !! e = Some l' → c ∈ l' →
            ∃ l, m_connected_slots st !! e = Some l ∧ c ∈ l ∧ getdest c ≠ this).
  { intros e l' c Hl' Hc. rewrite Hcs in Hl'.
    destruct (decide (e ∈ s)) as [He|He].
    - destruct (m_connected_slots st !! e) as [l|]; [|done]. simpl in Hl'.
      inversion Hl'; subst. apply list_elem_of_filter in Hc as [? ?]. eauto.
    - exists l'. do 2 (split; [done|]). intros Heq.
      destruct (Hbr e l' c Hl' Hc) as (s0 & Hs0 & He0). rewrite Heq, Hs in Hs0.
      inversion Hs0; subst. done. }
  split.
  - intros e l' c Hl' Hc. destruct (Hold e l' c Hl' Hc) as (l & Hl & Hcl & Hne).
    destruct (Hbr e l c Hl Hcl) as (s0 & Hs0 & He0).
    exists s0. split; [|done]. by rewrite Hms, lookup_delete_ne.
  - intros r s' e Hs'. rewrite Hms in Hs'.
    destruct (decide (this = r)) as [<-|Hne]; [by rewrite lookup_delete_eq in Hs'|].
    rewrite lookup_delete_ne in Hs' by done. rewrite (Hex r s' e Hs'). split.
    + intros (l & c & Hl & Hc & Hr). rewrite Hcs, Hl.
      destruct (decide (e ∈ s)); simpl; eexists _, c; (split; [done|]);
        (split; [|done]); [|done].
      apply list_elem_of_filter. split; [congruence|done].
    + intros (l' & c & Hl' & Hc & Hr).
      destruct (Hold e l' c Hl' Hc) as (l & Hl & Hcl & _). eauto.
Qed.

Lemma cloned_dest n (l : list connection) :
  getdest <$> cloned n l = getdest <$> l.
Proof. revert n. induction l as [|c l IH]; intros n; simpl; [done|]. by rewrite IH. Qed.

Lemma signal_copy_symmetric s this st :
  symmetric st →
  is_Some (m_connected_slots st !! s) →
  m_connected_slots st !! this = None →
  ∃ st', signal_copy s this st = Ok st' ∧ symmetric st'.
Proof.
  intros [Hbr Hex] [l Hl] Hfresh.
  destruct (signal_copy_spec s this l st Hl Hfresh) as (st' & Hcopy & Hcs & _ & Hsend).
  { intros c Hc. destruct (Hbr s l c Hl Hc) as (s0 & -> & _). eauto. }
  exists st'. split; [done|]. split.
  - intros e l0 c0 Hl0 Hc0. rewrite Hcs in Hl0. rewrite Hsend.
    destruct (decide (this = e)) as [<-|Hne].
    + rewrite lookup_insert_eq in Hl0. inversion Hl0; subst l0.
      assert (getdest c0 ∈ getdest <$> l) as Hd.
      { rewrite <- (cloned_dest (next_conn st)). by apply list_elem_of_fmap_2. }
      pose proof Hd as Hd'. apply list_elem_of_fmap in Hd' as (c & Hdc & Hc).
      destruct (Hbr s l c Hl Hc) as (s0 & Hs0 & _). rewrite Hdc, Hs0. simpl.
      eexists. split; [done|]. rewrite <- Hdc. rewrite decide_True by done. set_solver.
    + rewrite lookup_insert_ne in Hl0 by done.
      destruct (Hbr e l0 c0 Hl0 Hc0) as (s0 & -> & He0). simpl.
      eexists. split; [done|]. case_decide; set_solver.
  - intros r s' e Hs'. rewrite Hsend in Hs'. rewrite Hcs.
    destruct (m_senders st !! r) as [s0|] eqn:Hs0; [|done]. simpl in Hs'.
    inversion Hs'; subst s'. clear Hs'.
    destruct (decide (this = e)) as [<-|Hne].
    + rewrite lookup_insert_eq. split.
      * intros Hin. destruct (decide (r ∈ getdest <$> l)) as [Hr|Hr].
        -- rewrite <- (cloned_dest (next_conn st)) in Hr.
           apply list_elem_of_fmap in Hr as (c' & -> & Hc'). eauto.
        -- apply (Hex r s0 this Hs0) in Hin as (? & ? & ? & _). congruence.
      * intros (l0 & c0 & Hl0 & Hc0 & Hr). inversion Hl0; subst l0.
        rewrite decide_True; [set_solver|].
        rewrite <- (cloned_dest (next_conn st)), <- Hr. by apply list_elem_of_fmap_2.
    + rewrite lookup_insert_ne by done. rewrite <- (Hex r s0 e Hs0).
      case_decide; set_solver.
Qed.

Lemma has_slots_copy_symmetric fuel hs this s st :
  symmetric st →
  m_senders st !! hs = Some s →
  m_senders st !! this = None →
  (∀ e, e ∈ s → copy_ready fuel st e) →
  ∃ st', has_slots_copy fuel hs this st = Ok st' ∧ symmetric st'.
Proof.
  intros [Hbr Hex] Hhs Hfresh Hready.
  destruct (has_slots_copy_spec fuel hs this s st Hhs Hfresh Hready)
    as (st' & Hcopy & Hms & Hin & Hout & _).
  exists st'. split; [done|].
  assert (Hnot : ∀ e l c, m_connected_slots st !! e = Some l → c ∈ l →
                          getdest c ≠ this).
  { intros e l c Hl Hc Heq. destruct (Hbr e l c Hl Hc) as (? & ? & _). congruence. }
  assert (Hsplit : ∀ e l' c, m_connected_slots st' !! e = Some l' → c ∈ l' →
            (∃ l, m_connected_slots st !! e = Some l ∧ c ∈ l) ∨
            (e ∈ s ∧ getdest c = this)).
  { intros e l' c Hl' Hc. destruct (decide (e ∈ s)) as [He|He].
    - destruct (Hin e He) as (l & n & Hl & _ & Hl2). rewrite Hl2 in Hl'.
      inversion Hl'; subst l'. apply elem_of_app in Hc as [Hc|Hc]; [left; eauto|].
      right. split; [done|]. by apply rebound_elem in Hc as [? _].
    - rewrite Hout in Hl' by done. left; eauto. }
  assert (Hkept : ∀ e l c, m_connected_slots st !! e = Some l → c ∈ l →
            ∃ l', m_connected_slots st' !! e = Some l' ∧ c ∈ l').
  { intros e l c Hl Hc. destruct (decide (e ∈ s)) as [He|He].
    - destruct (Hin e He) as (l0 & n & Hl0 & _ & Hl2). rewrite Hl in Hl0.
      inversion Hl0; subst l0. eexists. split; [done|]. apply elem_of_app. by left.
    - exists l. by rewrite Hout. }
  split.
  - intros e l' c Hl' Hc. rewrite Hms.
    destruct (Hsplit e l' c Hl' Hc) as [(l & Hl & Hcl)|[He Hd]].
    + destruct (Hbr e l c Hl Hcl) as (s0 & Hs0 & He0).
      rewrite lookup_insert_ne by (intros Heq; by apply (Hnot e l c)). eauto.
    + rewrite Hd, lookup_insert_eq. eauto.
  - intros r s' e Hs'. rewrite Hms in Hs'.
    destruct (decide (this = r)) as [<-|Hne].
    + rewrite lookup_insert_eq in Hs'. inversion Hs'; subst s'. split.
      * intros He. destruct (Hin e He) as (l & n & Hl & _ & Hl2).
        apply (Hex hs s e Hhs) in He as (l0 & c & Hl0 & Hc & Hd).
        rewrite Hl in Hl0. inversion Hl0; subst l0.
        assert (c ∈ targeting hs l) as Hct by (by apply list_elem_of_filter).
        destruct (targeting hs l) as [|x t] eqn:Ht; [by apply elem_of_nil in Hct|].
        eexists _, (duplicate x this n). split; [done|]. split; [|done].
        apply elem_of_app. right. simpl. left.
      * intros (l' & c & Hl' & Hc & Hd).
        destruct (Hsplit e l' c Hl' Hc) as [(l & Hl & Hcl)|[He _]]; [|done].
        by destruct (Hnot e l c).
    + rewrite lookup_insert_ne in Hs' by done. rewrite (Hex r s' e Hs'). split.
      * intros (l & c & Hl & Hc & Hd).
        destruct (Hkept e l c Hl Hc) as (l' & Hl' & Hc'). eauto.
      * intros (l' & c & Hl' & Hc & Hd).
        destruct (Hsplit e l' c Hl' Hc) as [(l & Hl & Hcl)|[_ Hd']]; [eauto|congruence].
Qed.

(** * Allocation stays sound *)

Lemma well_allocated_empty : well_allocated empty_state.
Proof. intros e l H. simpl in H. by rewrite lookup_empty in H. Qed.

Lemma has_slots_new_allocated this st :
  well_allocated st → well_allocated (has_slots_new this st).
Proof. intros Hwa e l Hl. by apply (Hwa e l). Qed.

Lemma signals_new_allocated this st :
  well_allocated st → well_allocated (signals_new this st).
Proof.
  intros Hwa e l Hl. simpl in Hl. destruct (decide (this = e)) as [<-|Hne].
  - rewrite lookup_insert_eq in Hl. inversion Hl; subst. split; [constructor|].
    intros c Hc. by apply elem_of_nil in Hc.
  - rewrite lookup_insert_ne in Hl by done. by apply (Hwa e l).
Qed.

Lemma well_allocated_sublist e (l' : list connection) st l :
  well_allocated st →
  m_connected_slots st !! e = Some l →
  l' `sublist_of` l →
  ∀ ms, well_allocated (State (<[e := l']> (m_connected_slots st)) ms (next_conn st)).
Proof.
  intros Hwa Hl Hsub ms e' l0 Hl0. simpl in *.
  destruct (decide (e = e')) as [<-|Hne].
  - rewrite lookup_insert_eq in Hl0. inversion Hl0; subst l0.
    destruct (Hwa e l Hl) as [Hnd Hlt]. split.
    + eapply sublist_NoDup; [exact Hnd|]. by apply fmap_sublist.
    + intros c Hc. apply Hlt. by eapply elem_of_sublist.
  - rewrite lookup_insert_ne in Hl0 by done. by apply (Hwa e' l0).
Qed.

Lemma connect_allocated this pclass pmemfun st st' :
  connect this pclass pmemfun st = Ok st' → well_allocated st → well_allocated st'.
Proof.
  unfold connect, signal_connect.
  destruct (m_connected_slots st !! this) as [l|] eqn:Hl; [|done]. simpl.
  destruct (m_senders st !! pclass); [|done]. intros H Hwa. inversion H; subst. clear H.
  intros e l0 Hl0. simpl in *. destruct (decide (this = e)) as [<-|Hne].
  - rewrite lookup_insert_eq in Hl0. inversion Hl0; subst l0.
    destruct (Hwa this l Hl) as [Hnd Hlt]. split.
    + change [Conn (next_conn st) pclass pmemfun]
        with (rebound pclass (next_conn st) [Conn 0 pclass pmemfun]).
      by apply NoDup_with_fresh.
    + intros c Hc. apply elem_of_app in Hc as [Hc|Hc].
      * specialize (Hlt c Hc). lia.
      * apply list_elem_of_singleton in Hc as ->. simpl. lia.
  - rewrite lookup_insert_ne in Hl0 by done.
    destruct (Hwa e l0 Hl0) as [Hnd Hlt]. split; [done|].
    intros c Hc. specialize (Hlt c Hc). lia.
Qed.

Lemma disconnect_allocated this pclass st st' :
  disconnect this pclass st = Ok st' → well_allocated st → well_allocated st'.
Proof.
  unfold disconnect, signal_disconnect.
  destruct (m_connected_slots st !! this) as [l|] eqn:Hl; [|done].
  destruct (disconnect_loop pclass l) as [l'|] eqn:E; [|by intros [= <-]].
  simpl. destruct (m_senders st !! pclass); [|done].
  intros H Hwa. inversion H; subst. clear H.
  apply disconnect_loop_Some_inv in E as (l1 & c & l2 & -> & -> & _).
  apply (well_allocated_sublist this (l1 ++ l2) st (l1 ++ c :: l2)); [done..|].
  apply sublist_app; [done|]. by apply sublist_cons.
Qed.

Lemma has_slots_destroy_allocated this st st' :
  has_slots_destroy this st = Ok st' →
  (∀ s e, m_senders st !! this = Some s → e ∈ s → is_Some (m_connected_slots st !! e)) →
  well_allocated st → well_allocated st'.
Proof.
  intros Hd Hlive Hwa.
  destruct (m_senders st !! this) as [s|] eqn:Hs;
    [|unfold has_slots_destroy, has_slots_disconnect_all in Hd; by rewrite Hs in Hd].
  destruct (has_slots_destroy_spec this s st Hs (λ e, Hlive s e eq_refl))
    as (st1 & Hd1 & _ & Hn & Hcs).
  rewrite Hd in Hd1. inversion Hd1; subst st1.
  intros e l' Hl'. rewrite Hcs in Hl'. rewrite Hn.
  destruct (decide (e ∈ s)); [|by apply (Hwa e l')].
  destruct (m_connected_slots st !! e) as [l|] eqn:Hl; [|done].
  simpl in Hl'. inversion Hl'; subst l'. destruct (Hwa e l Hl) as [Hnd Hlt]. split.
  - eapply sublist_NoDup; [exact Hnd|]. apply fmap_sublist, sublist_filter.
  - intros c Hc. apply Hlt. by apply list_elem_of_filter in Hc as [_ ?].
Qed.

Lemma signal_copy_allocated s this st st' :
  signal_copy s this st = Ok st' →
  m_connected_slots st !! this = None →
  (∀ l c, m_connected_slots st !! s = Some l → c ∈ l →
          is_Some (m_senders st !! getdest c)) →
  well_allocated st → well_allocated st'.
Proof.
  intros Hc Hfresh Hlive Hwa.
  destruct (m_connected_slots st !! s) as [l|] eqn:Hl;
    [|unfold signal_copy in Hc; by rewrite Hl in Hc].
  destruct (signal_copy_spec s this l st Hl Hfresh (λ c, Hlive l c eq_refl))
    as (st1 & Hc1 & Hcs & Hn & _).
  rewrite Hc in Hc1. inversion Hc1; subst st1.
  intros e l0 Hl0. rewrite Hcs in Hl0. rewrite Hn.
  destruct (decide (this = e)) as [<-|Hne].
  - rewrite lookup_insert_eq in Hl0. inversion Hl0; subst l0. split.
    + rewrite cloned_ids. apply NoDup_seq.
    + intros c Hin. apply (list_elem_of_fmap_2 conn_id) in Hin.
      rewrite cloned_ids in Hin. apply elem_of_seq in Hin. lia.
  - rewrite lookup_insert_ne in Hl0 by done.
    destruct (Hwa e l0 Hl0) as [Hnd Hlt]. split; [done|].
    intros c Hin. specialize (Hlt c Hin). lia.
Qed.

Lemma copy_ready_of_allocated fuel st e l :
  well_allocated st →
  m_connected_slots st !! e = Some l →
  2 * length l < fuel →
  copy_ready fuel st e.
Proof. intros Hwa Hl Hfuel. exists l. destruct (Hwa e l Hl). by repeat split. Qed.

Lemma has_slots_copy_allocated fuel hs this s st st' :
  has_slots_copy fuel hs this st = Ok st' →
  m_senders st !! hs = Some s →
  m_senders st !! this = None →
  (∀ e, e ∈ s → copy_ready fuel st e) →
  well_allocated st → well_allocated st'.
Proof.
  intros Hc Hhs Hfresh Hready Hwa.
  destruct (has_slots_copy_spec fuel hs this s st Hhs Hfresh Hready)
    as (st1 & Hc1 & _ & Hin & Hout & Hn).
  rewrite Hc in Hc1. inversion Hc1; subst st1.
  intros e l' Hl'. destruct (decide (e ∈ s)) as [He|He].
  - destruct (Hin e He) as (l & n & Hl & [Hn1 Hn2] & Hl2).
    rewrite Hl2 in Hl'. inversion Hl'; subst l'.
    destruct (Hwa e l Hl) as [Hnd Hlt]. split.
    + apply NoDup_with_fresh; [done|]. intros c Hin'. specialize (Hlt c Hin'). lia.
    + intros c Hin'. apply elem_of_app in Hin' as [Hin'|Hin'].
      * specialize (Hlt c Hin'). lia.
      * apply rebound_elem in Hin' as [_ ?]. lia.
  - rewrite Hout in Hl' by done. destruct (Hwa e l' Hl') as [Hnd Hlt].
    split; [done|]. intros c Hin'. specialize (Hlt c Hin'). lia.
Qed.

(** * Concrete programs *)

Lemma symmetric_objects : symmetric objects.
Proof.
  unfold objects.
  repeat (apply has_slots_new_symmetric; [by vm_compute|]).
  apply signals_new_symmetric; [by vm_compute|]. apply symmetric_empty.
Qed.

Lemma symmetric_world_twice : symmetric world_twice.
Proof.
  destruct (connect_symmetric 1 10 0 objects) as (st1 & H1 & S1);
    [by vm_compute; eauto..|apply symmetric_objects|].
  pose proof H1 as H1'. vm_compute in H1'. inversion H1' as [E1].
  destruct (connect_symmetric 1 10 0 st1) as (st2 & H2 & S2);
    [subst st1; by vm_compute; eauto..|done|].
  unfold world_twice. rewrite H1. simpl. by rewrite H2.
Qed.

(** C2. The relation is broken by [disconnect] when the receiver has a
    second connection from the same signal: after connect(10), connect(10),
    disconnect(10) on signal 1 the list still holds a connection to
    receiver 10 while [m_senders] of 10 is empty.  Destroying receiver 10
    then leaves that connection in place, and the next [emit] calls through
    the dangling pointer. *)
Theorem disconnect_duplicate_breaks_symmetry :
  symmetric world_twice ∧
  ∃ st', disconnect 1 10 world_twice = Ok st' ∧
    m_connected_slots st' !! 1 = Some [Conn 1 10 0] ∧
    m_senders st' !! 10 = Some ∅ ∧
    ¬ symmetric st' ∧
    ∃ st'', has_slots_destroy 10 st' = Ok st'' ∧
      m_connected_slots st'' !! 1 = Some [Conn 1 10 0] ∧
      ∀ fuel, emit quiet (S fuel) 1 0 st'' = UB.
Proof.
  split; [apply symmetric_world_twice|].
  exists (ok_state (disconnect 1 10 world_twice)).
  assert (Hs10 : m_senders (ok_state (disconnect 1 10 world_twice)) !! 10 = Some ∅)
    by (by vm_compute).
  split; [by vm_compute|].
  split; [by vm_compute|]. split; [done|]. split.
  - intros [Hbr _].
    destruct (Hbr 1 [Conn 1 10 0] (Conn 1 10 0)) as (s & Hs & Hin);
      [by vm_compute|left|].
    change (getdest (Conn 1 10 0)) with 10 in Hs.
    rewrite Hs10 in Hs. inversion Hs; subst. set_solver.
  - eexists. split; [by vm_compute|]. split; [by vm_compute|].
    intros fuel. by vm_compute.
Qed.

(** C3. On a signal with connections to 10, 11 and 12, in that order, where
    the callable of 10 disconnects 11: when the callable returns, [emit]
    continues from the iterator it saved, which names the node that was just
    erased.  The behaviour is undefined whatever the fuel, and receiver 12,
    still connected, is not reached. *)
Theorem emit_disconnect_next_is_undefined :
  m_connected_slots world_chain !! 1
    = Some [Conn 0 10 1; Conn 1 11 0; Conn 2 12 0] ∧
  (∃ st', drops_11 1 10 0 world_chain = Ok st' ∧
          m_connected_slots st' !! 1 = Some [Conn 0 10 1; Conn 2 12 0]) ∧
  ∀ fuel, emit drops_11 (S (S fuel)) 1 0 world_chain = UB.
Proof.
  split; [by vm_compute|]. split.
  - eexists. split; by vm_compute.
  - intros fuel. by vm_compute.
Qed.

(** C7. The copy of a receiver gets connections only from the signals in
    the original's [m_senders].  After connect(10), connect(10),
    disconnect(10) on signal 1 the signal still holds a connection to the
    live receiver 10, and calls it, but receiver 10 lists no signal; copying
    receiver 10 to address 13 then appends nothing: the copy has an empty
    [m_senders], signal 1 holds no connection to it, and [emit] calls the
    original only.  Nothing is dangling on the way. *)
Theorem has_slots_copy_misses_unlisted_signal :
  ∃ st1 st2 st3,
    disconnect 1 10 world_twice = Ok st1 ∧
    m_connected_slots st1 !! 1 = Some [Conn 1 10 0] ∧
    m_senders st1 !! 10 = Some ∅ ∧
    (∀ fuel, has_slots_copy fuel 10 13 st1 = Ok st2) ∧
    m_connected_slots st2 !! 1 = Some [Conn 1 10 0] ∧
    m_senders st2 !! 13 = Some ∅ ∧
    emit quiet 3 1 7 st2 = Ok ([(10, 0, 7)], st3).
Proof.
  exists (ok_state (disconnect 1 10 world_twice)),
         (ok_state (has_slots_copy 0 10 13 (ok_state (disconnect 1 10 world_twice)))),
         (ok_state (has_slots_copy 0 10 13 (ok_state (disconnect 1 10 world_twice)))).
  split; [by vm_compute|]. split; [by vm_compute|]. split; [by vm_compute|].
  split; [intros fuel; by vm_compute|].
  split; [by vm_compute|]. split; by vm_compute.
Qed.

(** C8, as stated, fails: with connections to 10 and 11 on signal 1,
    [slot_duplicate] from 10 to the live receiver 12 returns with the
    duplicate appended, and [m_senders] of 12 is still empty. *)
Lemma slot_duplicate_alone_does_not_register :
  ∃ st', slot_duplicate 5 1 10 12 world_pair = Ok st' ∧
    m_connected_slots st' !! 1 = Some [Conn 0 10 0; Conn 1 11 0; Conn 2 12 0] ∧
    m_senders st' !! 12 = Some ∅ ∧
    ¬ ∃ s, m_senders st' !! 12 = Some s ∧ 1 ∈ s.
Proof.
  exists (ok_state (slot_duplicate 5 1 10 12 world_pair)).
  assert (H12 : m_senders (ok_state (slot_duplicate 5 1 10 12 world_pair)) !! 12
                = Some ∅) by (by vm_compute).
  split; [by vm_compute|]. split; [by vm_compute|]. split; [done|].
  intros (s & Hs & Hin). rewrite H12 in Hs. inversion Hs; subst. set_solver.
Qed.

(** * The theorems at concrete programs *)

Lemma world_pair_list :
  m_connected_slots world_pair !! 1 = Some [Conn 0 10 0; Conn 1 11 0].
Proof. by vm_compute. Qed.

Lemma world_pair_live c :
  c ∈ [Conn 0 10 0; Conn 1 11 0] → is_Some (m_senders world_pair !! getdest c).
Proof. intros H. each_of H; vm_compute; eauto. Qed.

Lemma world_pair_nodup : NoDup (conn_id <$> [Conn 0 10 0; Conn 1 11 0]).
Proof. simpl. repeat (constructor; [set_solver|]). constructor. Qed.

Lemma world_pair_allocated c :
  c ∈ [Conn 0 10 0; Conn 1 11 0] → conn_id c < next_conn world_pair.
Proof. intros H. each_of H; vm_compute; lia. Qed.

Lemma world_pair_copy_ready e : e ∈ ({[1]} : gset nat) → copy_ready 5 world_pair e.
Proof.
  intros ->%elem_of_singleton. exists [Conn 0 10 0; Conn 1 11 0].
  split; [apply world_pair_list|]. split; [apply world_pair_nodup|].
  split; [apply world_pair_allocated|]. simpl. lia.
Qed.

Lemma world_pair_targets_live e l c :
  e ∈ ({[1]} : gset nat) → m_connected_slots world_pair !! e = Some l → c ∈ l →
  is_Some (m_senders world_pair !! getdest c).
Proof.
  intros ->%elem_of_singleton Hl Hc. rewrite world_pair_list in Hl.
  inversion Hl; subst. by apply world_pair_live.
Qed.

Lemma connect_elsewhere_attached e pclass pmemfun this l st st' :
  connect e pclass pmemfun st = Ok st' →
  e ≠ this →
  attached this l st →
  attached this l st'.
Proof.
  unfold connect, signal_connect.
  destruct (m_connected_slots st !! e) as [le|]; [|done]. simpl.
  destruct (m_senders st !! pclass) as [s|]; [|done].
  intros [= <-] Hne [Hl Hlive]. split; simpl.
  - by rewrite lookup_insert_ne.
  - intros c Hc. destruct (decide (pclass = getdest c)) as [->|Hd].
    + rewrite lookup_insert_eq. eauto.
    + rewrite lookup_insert_ne by done. by apply Hlive.
Qed.

Lemma emit_calls_each_once_in_order_witness :
  ∃ st', emit tallies 3 1 7 world_tally = Ok ([(10, 0, 7); (11, 0, 7)], st') ∧
         m_connected_slots st' !! 1 = Some [Conn 0 10 0; Conn 1 11 0] ∧
         m_connected_slots st' !! 2 = Some [Conn 2 10 0; Conn 3 11 0].
Proof.
  destruct (emit_calls_each_once_in_order tallies 1 7 [Conn 0 10 0; Conn 1 11 0] 3
              world_tally) as (st' & H & Hrun & _).
  - split; [by vm_compute|]. intros c Hc. each_of Hc; vm_compute; eauto.
  - apply world_pair_nodup.
  - intros c x Hc Hx. unfold tallies.
    destruct (connect 2 (m_pobject c) (m_pmemfun c) x) as [x'| |] eqn:E;
      [|by exists x..].
    exists x'. split; [done|].
    by apply (connect_elsewhere_attached 2 (m_pobject c) (m_pmemfun c) 1 _ x x').
  - simpl. lia.
  - exists st'. split; [exact H|].
    vm_compute in Hrun. inversion Hrun; subst st'. split; by vm_compute.
Defined.

Lemma disconnect_removes_first_match_witness :
  ∃ st', disconnect 1 10 world_twice = Ok st' ∧
         m_connected_slots st' !! 1 = Some [Conn 1 10 0].
Proof.
  destruct (disconnect_removes_first_match 1 10 [] (Conn 0 10 0) [Conn 1 10 0]
              {[1]} world_twice) as (H & _).
  - by vm_compute.
  - reflexivity.
  - intros c' Hc'. by apply elem_of_nil in Hc'.
  - by vm_compute.
  - eexists. split; [exact H|]. simpl. by rewrite lookup_insert_eq.
Defined.

Lemma disconnect_absent_is_noop_witness :
  disconnect 1 12 world_pair = Ok world_pair.
Proof.
  apply (disconnect_absent_is_noop 1 12 [Conn 0 10 0; Conn 1 11 0]).
  - apply world_pair_list.
  - intros c H. each_of H; by vm_compute.
Defined.

Lemma has_slots_destroy_drops_connections_witness :
  ∃ st', has_slots_destroy 11 world_pair = Ok st' ∧
         m_senders st' = delete 11 (m_senders world_pair).
Proof.
  destruct (has_slots_destroy_drops_connections quiet 11 {[1]} world_pair)
    as (st' & H & Hs & _).
  - by vm_compute.
  - intros e ->%elem_of_singleton. by vm_compute; eauto.
  - exists st'. by split.
Defined.

Lemma signal_copy_duplicates_connections_witness :
  ∃ st' l', signal_copy 1 2 world_pair = Ok st' ∧
            m_connected_slots st' !! 2 = Some l'.
Proof.
  destruct (signal_copy_duplicates_connections quiet 1 2
              [Conn 0 10 0; Conn 1 11 0] world_pair)
    as (st' & l' & H & _ & Hl' & _).
  - apply world_pair_list.
  - by vm_compute.
  - apply world_pair_nodup.
  - apply world_pair_allocated.
  - apply world_pair_live.
  - exists st', l'. by split.
Defined.

Lemma has_slots_copy_duplicates_relationship_witness :
  ∃ st', has_slots_copy 5 10 13 world_pair = Ok st' ∧
         m_senders st' !! 13 = Some {[1]}.
Proof.
  destruct (has_slots_copy_duplicates_relationship quiet 5 10 13 {[1]} world_pair)
    as (st' & H & _ & Hs & _).
  - by vm_compute.
  - by vm_compute.
  - apply world_pair_copy_ready.
  - apply world_pair_targets_live.
  - exists st'. by split.
Defined.

Lemma has_slots_copy_appends_at_tail_witness :
  ∃ st', has_slots_copy 5 10 13 world_pair = Ok st'.
Proof.
  destruct (has_slots_copy_appends_at_tail quiet 5 10 13 {[1]} world_pair)
    as (st' & H & _).
  - by vm_compute.
  - by vm_compute.
  - apply world_pair_copy_ready.
  - apply world_pair_targets_live.
  - by exists st'.
Defined.

Lemma emit_tolerates_self_disconnect_witness :
  ∃ st' kept, emit drops_self 3 1 0 world_self = Ok ([(10, 1, 0); (11, 0, 0)], st') ∧
    kept = [Conn 1 11 0] ∧
    ∃ st'', emit drops_self 3 1 0 st' = Ok ([(11, 0, 0)], st'').
Proof.
  destruct (emit_tolerates_self_disconnect drops_self marks_1 1 0
              [Conn 0 10 1; Conn 1 11 0] 3 world_self)
    as (st' & kept & He & _ & _ & Hkept & st'' & He2).
  - split; [by vm_compute|]. intros c H. each_of H; vm_compute; eauto.
  - simpl. repeat (constructor; [set_solver|]). constructor.
  - intros c H st. each_of H; reflexivity.
  - simpl. lia.
  - exists st', kept. split; [exact He|].
    assert (kept = [Conn 1 11 0]) as ->.
    { apply Hkept. simpl. repeat (constructor; [set_solver|]). constructor. }
    split; [done|]. exists st''. exact He2.
Defined.

Lemma slot_duplicate_appends_without_registering_witness :
  ∃ st', slot_duplicate 5 1 10 12 world_pair = Ok st' ∧
         m_senders st' = m_senders world_pair.
Proof.
  destruct (slot_duplicate_appends_without_registering 5 1 10 12
              [Conn 0 10 0; Conn 1 11 0] world_pair)
    as (st' & H & _ & _ & _ & Hs).
  - apply world_pair_list.
  - lia.
  - apply world_pair_nodup.
  - apply world_pair_allocated.
  - simpl. lia.
  - exists st'. by split.
Defined.

(** * The scenarios of the specification, run on the model *)

(** connect A, B, C; emit(5): A(5), B(5), C(5). *)
Example scenario_emit_order :
  (st ← connect 1 10 0 objects; st ← connect 1 11 0 st; st ← connect 1 12 0 st;
   '(calls, _) ← emit quiet 9 1 5 st; Ok calls)
  = Ok [(10, 0, 5); (11, 0, 5); (12, 0, 5)].
Proof. by vm_compute. Qed.

(** connect A and B; destroy B; emit(1): only A(1). *)
Example scenario_destroy_receiver :
  (st ← connect 1 10 0 objects; st ← connect 1 11 0 st;
   st ← has_slots_destroy 11 st;
   '(calls, _) ← emit quiet 9 1 1 st; Ok calls)
  = Ok [(10, 0, 1)].
Proof. by vm_compute. Qed.

(** A's callable disconnects A; connect A, B; emit twice. *)
Example scenario_self_disconnect :
  (st ← connect 1 10 1 objects; st ← connect 1 11 0 st;
   '(calls1, st) ← emit drops_self 9 1 0 st;
   '(calls2, _) ← emit drops_self 9 1 0 st; Ok (calls1, calls2))
  = Ok ([(10, 1, 0); (11, 0, 0)], [(11, 0, 0)]).
Proof. by vm_compute. Qed.

(** connect A to E1; E2 = copy(E1); emit both. *)
Example scenario_copy_signal :
  (st ← connect 1 10 0 objects; st ← signal_copy 1 2 st;
   '(calls1, st) ← emit quiet 9 1 0 st;
   '(calls2, _) ← emit quiet 9 2 0 st; Ok (calls1, calls2))
  = Ok ([(10, 0, 0)], [(10, 0, 0)]).
Proof. by vm_compute. Qed.

(** connect A to E; B = copy(A); emit; disconnect(E, A); emit. *)
Example scenario_copy_receiver :
  (st ← connect 1 10 0 objects; st ← has_slots_copy 9 10 13 st;
   '(calls1, st) ← emit quiet 9 1 0 st;
   st ← disconnect 1 10 st;
   '(calls2, _) ← emit quiet 9 1 0 st; Ok (calls1, calls2))
  = Ok ([(10, 0, 0); (13, 0, 0)], [(13, 0, 0)]).
Proof. by vm_compute. Qed.

(** connect A twice; emit; disconnect once; emit. *)
Example scenario_duplicates :
  (st ← connect 1 10 0 objects; st ← connect 1 10 0 st;
   '(calls1, st) ← emit quiet 9 1 0 st;
   st ← disconnect 1 10 st;
   '(calls2, _) ← emit quiet 9 1 0 st; Ok (calls1, calls2))
  = Ok ([(10, 0, 0); (10, 0, 0)], [(10, 0, 0)]).
Proof. by vm_compute. Qed.

(** * connect, disconnect_all and the destructors *)

(** X1. [connect] on a live signal and a live receiver returns normally
    and keeps the cross-reference relation. *)
Theorem connect_keeps_relation this pclass pmemfun st :
  is_Some (m_connected_slots st !! this) →
  is_Some (m_senders st !! pclass) →
  symmetric st →
  ∃ st', connect this pclass pmemfun st = Ok st' ∧ symmetric st'.
Proof. apply connect_symmetric. Qed.

(** X2. [connect] does not look for an existing connection: connecting the
    same receiver and member function twice appends two connections, in
    two distinct objects, at the tail of the list, while the receiver's
    [m_senders] set holds the signal once. *)
Theorem connect_twice_appends_two this pclass pmemfun l s st :
  m_connected_slots st !! this = Some l →
  m_senders st !! pclass = Some s →
  ∃ st', (st1 ← connect this pclass pmemfun st; connect this pclass pmemfun st1)
           = Ok st' ∧
    m_connected_slots st' !! this
      = Some (l ++ [Conn (next_conn st) pclass pmemfun;
                    Conn (S (next_conn st)) pclass pmemfun]) ∧
    m_senders st' !! pclass = Some ({[this]} ∪ s) ∧
    (∀ e, e ≠ this → m_connected_slots st' !! e = m_connected_slots st !! e) ∧
    (∀ r, r ≠ pclass → m_senders st' !! r = m_senders st !! r).
Proof.
  intros Hl Hs. unfold connect, signal_connect. rewrite Hl. simpl. rewrite Hs. simpl.
  rewrite !lookup_insert_eq.
  eexists. split; [done|]. simpl. rewrite !lookup_insert_eq.
  split; [by rewrite <- app_assoc|]. split; [f_equal; set_solver|]. split.
  - intros e He. by rewrite !lookup_insert_ne.
  - intros r Hr. by rewrite !lookup_insert_ne.
Qed.

(** X3. [connect] followed by [disconnect] of the same receiver undoes the
    connection when the receiver was not connected to the signal before: the
    lists and the [m_senders] sets are exactly the old ones; only the
    allocator has moved on. *)
Theorem connect_then_disconnect_restores this pclass pmemfun l s st :
  m_connected_slots st !! this = Some l →
  (∀ c, c ∈ l → getdest c ≠ pclass) →
  m_senders st !! pclass = Some s →
  this ∉ s →
  (st1 ← connect this pclass pmemfun st; disconnect this pclass st1)
  = Ok (State (m_connected_slots st) (m_senders st) (S (next_conn st))).
Proof.
  intros Hl Hno Hs Hnot. unfold connect, signal_connect. rewrite Hl. simpl.
  rewrite Hs. simpl. unfold disconnect. simpl. rewrite lookup_insert_eq.
  rewrite (disconnect_loop_first pclass l _ []) by done.
  unfold signal_disconnect. simpl. rewrite lookup_insert_eq. f_equal.
  unfold set_senders, set_slots. simpl. f_equal.
  - rewrite insert_insert_eq, app_nil_r. by apply insert_id.
  - rewrite insert_insert_eq.
    replace (({[this]} ∪ s) ∖ {[this]}) with s by set_solver.
    by apply insert_id.
Qed.

Section SignalTeardown.
Context {Args : Type}.
Variable body : nat → nat → Args → state → result state.

(** X4. [disconnect_all] on a live signal, in a store where the relation
    holds, returns normally and keeps the relation; the list of the signal
    is empty, no receiver lists the signal any more, the other lists are
    untouched, and a later [emit] makes no call. *)
Theorem disconnect_all_clears_signal e st :
  symmetric st →
  is_Some (m_connected_slots st !! e) →
  ∃ st', disconnect_all e st = Ok st' ∧ symmetric st' ∧
    m_connected_slots st' !! e = Some [] ∧
    (∀ r s, m_senders st' !! r = Some s → e ∉ s) ∧
    (∀ e', e' ≠ e → m_connected_slots st' !! e' = m_connected_slots st !! e') ∧
    ∀ a fuel, emit body (S fuel) e a st' = Ok ([], st').
Proof.
  intros Hsym Hlive.
  destruct (disconnect_all_symmetric e st Hsym Hlive) as (st' & Hd & Hsym' & Hcs).
  exists st'. do 2 (split; [done|]).
  assert (He : m_connected_slots st' !! e = Some []) by (by rewrite Hcs, lookup_insert_eq).
  split; [done|]. split.
  { intros r s Hs Hin. destruct Hsym' as [_ Hex].
    apply (Hex r s e Hs) in Hin as (l & c & Hl & Hc & _).
    rewrite He in Hl. inversion Hl; subst. by apply elem_of_nil in Hc. }
  split.
  { intros e' Hne. by rewrite Hcs, lookup_insert_ne. }
  intros a fuel. unfold emit. by rewrite He.
Qed.
End SignalTeardown.

(** X5. A second [disconnect_all] on a signal is a no-op: when the first
    call returned, the second returns the same store. *)
Theorem disconnect_all_twice e st st' :
  disconnect_all e st = Ok st' → disconnect_all e st' = Ok st'.
Proof.
  unfold disconnect_all.
  destruct (m_connected_slots st !! e) as [l|]; [|done].
  destruct (disconnect_all_loop e l st) as [st1| |]; simpl; [|done..].
  intros [= <-]. simpl. rewrite lookup_insert_eq. simpl.
  unfold set_slots. simpl. by rewrite insert_insert_eq.
Qed.

(** X6. Destroying a live signal, in a store where the relation holds,
    returns normally and keeps the relation; the signal is gone from the
    store and no receiver lists it, so no receiver is left with a pointer to
    the destroyed signal. *)
Theorem signal_destroy_leaves_no_listing e st :
  symmetric st →
  is_Some (m_connected_slots st !! e) →
  ∃ st', signal_destroy e st = Ok st' ∧ symmetric st' ∧
    m_connected_slots st' !! e = None ∧
    (∀ r s, m_senders st' !! r = Some s → e ∉ s) ∧
    (∀ e', e' ≠ e → m_connected_slots st' !! e' = m_connected_slots st !! e').
Proof.
  intros Hsym Hlive.
  destruct (signal_destroy_symmetric e st Hsym Hlive) as (st' & Hd & Hsym').
  exists st'. do 2 (split; [done|]).
  destruct (disconnect_all_symmetric e st Hsym Hlive) as (st1 & Hd1 & _ & Hcs).
  unfold signal_destroy in Hd. rewrite Hd1 in Hd. simpl in Hd.
  inversion Hd; subst st'. simpl in *.
  assert (He : delete e (m_connected_slots st1) !! e = None) by apply lookup_delete_eq.
  split; [done|]. split.
  - intros r s Hs Hin. destruct Hsym' as [_ Hex].
    apply (Hex r s e Hs) in Hin as (l & c & Hl & _). simpl in Hl. congruence.
  - intros e' Hne. by rewrite lookup_delete_ne, Hcs, lookup_insert_ne.
Qed.

(** X7. Destroying a live receiver, in a store where the relation holds,
    returns normally and keeps the relation; the receiver is gone from the
    store and no list of any signal holds a connection to it, so no signal is
    left with a pointer to the destroyed receiver. *)
Theorem has_slots_destroy_leaves_no_connection this st :
  symmetric st →
  is_Some (m_senders st !! this) →
  ∃ st', has_slots_destroy this st = Ok st' ∧ symmetric st' ∧
    m_senders st' !! this = None ∧
    (∀ e l c, m_connected_slots st' !! e = Some l → c ∈ l → getdest c ≠ this) ∧
    (∀ r, r ≠ this → m_senders st' !! r = m_senders st !! r).
Proof.
  intros Hsym [s Hs].
  destruct (has_slots_destroy_symmetric this st Hsym) as (st' & Hd & Hsym'); [eauto|].
  exists st'. do 2 (split; [done|]).
  destruct (has_slots_destroy_spec this s st Hs) as (st1 & Hd1 & Hms & _).
  { intros e He. destruct Hsym as [_ Hex].
    apply (Hex this s e Hs) in He as (l & _ & -> & _). eauto. }
  rewrite Hd in Hd1. inversion Hd1; subst st1.
  assert (Hgone : m_senders st' !! this = None) by (by rewrite Hms, lookup_delete_eq).
  split; [done|]. split.
  - intros e l c Hl Hc Heq. destruct Hsym' as [Hbr _].
    destruct (Hbr e l c Hl Hc) as (s0 & Hs0 & _). congruence.
  - intros r Hr. by rewrite Hms, lookup_delete_ne.
Qed.

(** X8. [disconnect] keeps the relation whenever the receiver is connected
    to the signal at most once (also when it is not connected at all). *)
Theorem disconnect_keeps_relation_when_single e r l st :
  symmetric st →
  m_connected_slots st !! e = Some l →
  length (targeting r l) ≤ 1 →
  ∃ st', disconnect e r st = Ok st' ∧ symmetric st'.
Proof. apply disconnect_symmetric. Qed.

(** * What holds also after a duplicate was disconnected *)

(** X9. [disconnect] never leaves a stale listing: if every signal listed
    by a receiver holds a connection to it before, the same is true after,
    also when the erased connection had duplicates. *)
Theorem disconnect_keeps_listings_fresh e r st st' :
  disconnect e r st = Ok st' →
  no_stale_listing st →
  no_stale_listing st'.
Proof.
  unfold disconnect, signal_disconnect.
  destruct (m_connected_slots st !! e) as [l|] eqn:Hl; [|done].
  destruct (disconnect_loop r l) as [l'|] eqn:E; [|by intros [= <-]].
  simpl. destruct (m_senders st !! r) as [s|] eqn:Hs; [|done].
  intros [= <-] Hfresh.
  apply disconnect_loop_Some_inv in E as (l1 & c & l2 & -> & -> & Hc & _).
  intros r0 s0 e0 Hs0 He0. simpl in *.
  assert (Hold : ∃ s1, m_senders st !! r0 = Some s1 ∧ e0 ∈ s1 ∧ (r0 = r → e0 ≠ e)).
  { destruct (decide (r = r0)) as [<-|Hne].
    - rewrite lookup_insert_eq in Hs0. inversion Hs0; subst s0.
      exists s. split; [done|]. set_solver.
    - rewrite lookup_insert_ne in Hs0 by done. exists s0. by repeat split. }
  destruct Hold as (s1 & Hs1 & He1 & Hdiff).
  destruct (Hfresh r0 s1 e0 Hs1 He1) as (l0 & c0 & Hl0 & Hc0 & Hr0).
  destruct (decide (e = e0)) as [<-|Hne].
  - rewrite lookup_insert_eq. rewrite Hl in Hl0. inversion Hl0; subst l0.
    exists (l1 ++ l2), c0. split; [done|]. split; [|done].
    apply elem_of_app in Hc0 as [?|Hc0]; apply elem_of_app; [by left|].
    apply elem_of_cons in Hc0 as [->|?]; [|by right].
    exfalso. by apply Hdiff; [congruence|].
  - rewrite lookup_insert_ne by done. eauto.
Qed.

(** X10. Where no listing is stale, destroying a live receiver returns
    normally (every signal its destructor calls is alive) and leaves no stale
    listing. *)
Theorem has_slots_destroy_defined this st :
  no_stale_listing st →
  is_Some (m_senders st !! this) →
  ∃ st', has_slots_destroy this st = Ok st' ∧ no_stale_listing st'.
Proof.
  intros Hfresh [s Hs].
  destruct (has_slots_destroy_spec this s st Hs) as (st' & Hd & Hms & _ & Hcs).
  { intros e He. destruct (Hfresh this s e Hs He) as (l & _ & -> & _). eauto. }
  exists st'. split; [done|].
  intros r s0 e Hs0 He. rewrite Hms in Hs0.
  destruct (decide (this = r)) as [<-|Hne]; [by rewrite lookup_delete_eq in Hs0|].
  rewrite lookup_delete_ne in Hs0 by done.
  destruct (Hfresh r s0 e Hs0 He) as (l & c & Hl & Hc & Hr).
  rewrite Hcs, Hl. destruct (decide (e ∈ s)); simpl; [|eauto].
  eexists _, c. split; [done|]. split; [|done].
  apply list_elem_of_filter. split; [congruence|done].
Qed.

(** * The copy constructors and the relation *)

(** X11. Copy-constructing a signal at a new address from a live signal
    returns normally and keeps the cross-reference relation. *)
Theorem signal_copy_keeps_relation s this st :
  symmetric st →
  is_Some (m_connected_slots st !! s) →
  m_connected_slots st !! this = None →
  ∃ st', signal_copy s this st = Ok st' ∧ symmetric st'.
Proof. apply signal_copy_symmetric. Qed.

(** X12. Copy-constructing a receiver at a new address from a live receiver
    returns normally and keeps the cross-reference relation. *)
Theorem has_slots_copy_keeps_relation fuel hs this s st :
  symmetric st →
  m_senders st !! hs = Some s →
  m_senders st !! this = None →
  (∀ e, e ∈ s → copy_ready fuel st e) →
  ∃ st', has_slots_copy fuel hs this st = Ok st' ∧ symmetric st'.
Proof. apply has_slots_copy_symmetric. Qed.

(** * has_slots::disconnect_all on a receiver that lives on *)

Lemma has_slots_disconnect_all_spec this s st :
  m_senders st !! this = Some s →
  (∀ e, e ∈ s → is_Some (m_connected_slots st !! e)) →
  ∃ st', has_slots_disconnect_all this st = Ok st' ∧
    m_senders st' = <[this := ∅]> (m_senders st) ∧
    ∀ e, m_connected_slots st' !! e =
         if decide (e ∈ s)
         then filter (λ c, getdest c ≠ this) <$> m_connected_slots st !! e
         else m_connected_slots st !! e.
Proof.
  intros Hs Hlive.
  destruct (has_slots_disconnect_loop_spec this (elements s) (NoDup_elements s) st)
    as (st1 & Hloop & Hms & Hn & Hcs).
  { intros e He. apply Hlive. by apply elem_of_elements. }
  unfold has_slots_disconnect_all. rewrite Hs, Hloop. simpl.
  eexists. split; [done|]. simpl. split; [by rewrite Hms|].
  intros e. rewrite Hcs.
  destruct (decide (e ∈ s)) as [He|He].
  - rewrite decide_True by (by apply elem_of_elements).
    destruct (m_connected_slots st !! e); simpl; [|done].
    by rewrite slot_disconnect_loop_filter.
  - rewrite decide_False; [done|]. by rewrite elem_of_elements.
Qed.

(** X13. [has_slots::disconnect_all] on a live receiver, in a store where
    the relation holds, returns normally and keeps the relation; the receiver
    stays alive with an empty [m_senders] and no list of any signal holds a
    connection to it. *)
Theorem has_slots_disconnect_all_detaches this st :
  symmetric st →
  is_Some (m_senders st !! this) →
  ∃ st', has_slots_disconnect_all this st = Ok st' ∧ symmetric st' ∧
    m_senders st' !! this = Some ∅ ∧
    (∀ e l c, m_connected_slots st' !! e = Some l → c ∈ l → getdest c ≠ this) ∧
    (∀ r, r ≠ this → m_senders st' !! r = m_senders st !! r).
Proof.
  intros [Hbr Hex] [s Hs].
  destruct (has_slots_disconnect_all_spec this s st Hs) as (st' & Hd & Hms & Hcs).
  { intros e He. apply (Hex this s e Hs) in He as (l & _ & -> & _). eauto. }
  exists st'. split; [done|].
  assert (Hold : ∀ e l' c, m_connected_slots st' !! e = Some l' → c ∈ l' →
            ∃ l, m_connected_slots st !! e = Some l ∧ c ∈ l ∧ getdest c ≠ this).
  { intros e l' c Hl' Hc. rewrite Hcs in Hl'.
    destruct (decide (e ∈ s)) as [He|He].
    - destruct (m_connected_slots st !! e) as [l|]; [|done]. simpl in Hl'.
      inversion Hl'; subst. apply list_elem_of_filter in Hc as [? ?]. eauto.
    - exists l'. do 2 (split; [done|]). intros Heq.
      destruct (Hbr e l' c Hl' Hc) as (s0 & Hs0 & He0). rewrite Heq, Hs in Hs0.
      inversion Hs0; subst. done. }
  split; [split|].
  - intros e l' c Hl' Hc. destruct (Hold e l' c Hl' Hc) as (l & Hl & Hcl & Hne).
    destruct (Hbr e l c Hl Hcl) as (s0 & Hs0 & He0).
    exists s0. split; [|done]. by rewrite Hms, lookup_insert_ne.
  - intros r s' e Hs'. rewrite Hms in Hs'.
    destruct (decide (this = r)) as [<-|Hne].
    + rewrite lookup_insert_eq in Hs'. inversion Hs'; subst s'. split; [set_solver|].
      intros (l' & c & Hl' & Hc & Hr).
      destruct (Hold e l' c Hl' Hc) as (_ & _ & _ & Hne). done.
    + rewrite lookup_insert_ne in Hs' by done. rewrite (Hex r s' e Hs'). split.
      * intros (l & c & Hl & Hc & Hr). rewrite Hcs, Hl.
        destruct (decide (e ∈ s)); simpl; eexists _, c; (split; [done|]);
          (split; [|done]); [|done].
        apply list_elem_of_filter. split; [congruence|done].
      * intros (l' & c & Hl' & Hc & Hr).
        destruct (Hold e l' c Hl' Hc) as (l & Hl & Hcl & _). eauto.
  - split; [by rewrite Hms, lookup_insert_eq|]. split.
    + intros e l c Hl Hc. by destruct (Hold e l c Hl Hc) as (_ & _ & _ & ?).
    + intros r Hr. by rewrite Hms, lookup_insert_ne.
Qed.

(** X14. A second [has_slots::disconnect_all] on a receiver is a no-op:
    when the first call returned, the second returns the same store. *)
Theorem has_slots_disconnect_all_twice this st st' :
  has_slots_disconnect_all this st = Ok st' →
  has_slots_disconnect_all this st' = Ok st'.
Proof.
  unfold has_slots_disconnect_all.
  destruct (m_senders st !! this) as [s|]; [|done].
  destruct (has_slots_disconnect_loop this (elements s) st) as [st1| |]; simpl; [|done..].
  intros [= <-]. simpl. rewrite lookup_insert_eq, elements_empty. simpl.
  unfold set_senders. simpl. by rewrite insert_insert_eq.
Qed.

(** * More on dispatch *)

Section DispatchMore.
Context {Args : Type}.
Variable body : nat → nat → Args → state → result state.

Lemma operator_call_loop_emit_loop fuel this it (a : Args) calls st :
  operator_call_loop body fuel this it a calls st
  = emit_loop body fuel this it a calls st.
Proof.
  revert it calls st. induction fuel as [|fuel IH]; intros it calls st; [done|].
  simpl. destruct it as [id|]; [|done].
  destruct (m_connected_slots st !! this) as [l|]; [|done].
  destruct (node_at id l) as [[c itNext]|]; [|done].
  destruct (conn_emit body c a st); simpl; [apply IH|done..].
Qed.

(** X15. The call operator of a signal and [emit] agree: on every store,
    with every callable and every fuel they make the same calls and leave the
    same store, or fail in the same way. *)
Theorem operator_call_is_emit fuel this (a : Args) st :
  operator_call body fuel this a st = emit body fuel this a st.
Proof.
  unfold operator_call, emit. destruct (m_connected_slots st !! this); [|done].
  apply operator_call_loop_emit_loop.
Qed.

(** X16. [emit] changes nothing by itself: when the callables bound in the
    list return the store as they got it, the store after [emit] is the
    store before. *)
Theorem emit_leaves_store this (a : Args) l fuel st :
  attached this l st →
  NoDup (conn_id <$> l) →
  (∀ c, c ∈ l → body (m_pmemfun c) (m_pobject c) a st = Ok st) →
  length l < fuel →
  emit body fuel this a st = Ok (calls_of a l, st).
Proof.
  intros Hatt Hnd Hq Hfuel.
  destruct (emit_steady body this a (λ x, x = st) l fuel st)
    as (st' & He & ->); try done.
  - by intros x ->.
  - intros c x Hc ->. exists st. split; [by apply Hq|done].
Qed.

(** X17. [connect] appends: after connecting a live receiver, [emit] makes
    the calls of the old list in their order and calls the new connection
    last. *)
Theorem connect_then_emit_calls_last this pclass pmemfun (a : Args) l fuel st :
  attached this l st →
  NoDup (conn_id <$> l) →
  (∀ c, c ∈ l → conn_id c < next_conn st) →
  is_Some (m_senders st !! pclass) →
  keeps body a (l ++ [Conn (next_conn st) pclass pmemfun])
        (attached this (l ++ [Conn (next_conn st) pclass pmemfun])) →
  S (length l) < fuel →
  ∃ st1 st2, connect this pclass pmemfun st = Ok st1 ∧
    emit body fuel this a st1 = Ok (calls_of a l ++ [(pclass, pmemfun, a)], st2).
Proof.
  intros [Hl Hlive] Hnd Hlt [s Hs] Hk Hfuel.
  unfold connect, signal_connect. rewrite Hl. simpl. rewrite Hs.
  eexists. 
  destruct (emit_steady body this a
              (attached this (l ++ [Conn (next_conn st) pclass pmemfun]))
              (l ++ [Conn (next_conn st) pclass pmemfun]) fuel
              (set_senders pclass ({[this]} ∪ s)
                 (State (<[this := l ++ [Conn (next_conn st) pclass pmemfun]]>
                           (m_connected_slots st)) (m_senders st) (S (next_conn st)))))
    as (st2 & He & _); try done.
  - change [Conn (next_conn st) pclass pmemfun]
      with (rebound pclass (next_conn st) [Conn 0 pclass pmemfun]).
    by apply NoDup_with_fresh.
  - split; [simpl; by rewrite lookup_insert_eq|].
    intros c Hc. simpl.
    destruct (decide (pclass = getdest c)) as [->|Hne].
    + rewrite lookup_insert_eq. eauto.
    + rewrite lookup_insert_ne by done.
      apply elem_of_app in Hc as [Hc|Hc]; [by apply Hlive|].
      apply list_elem_of_singleton in Hc as ->. done.
  - rewrite length_app. simpl. lia.
  - exists st2. split; [done|]. by rewrite He, calls_of_app.
Qed.

(** X18. After [disconnect] of a receiver, [emit] calls the connections of
    the old list in their order without the first connection to that
    receiver; later connections to the same receiver are still called. *)
Theorem disconnect_then_emit_skips_first this pclass (a : Args) l1 c l2 fuel st :
  attached this (l1 ++ c :: l2) st →
  NoDup (conn_id <$> (l1 ++ c :: l2)) →
  getdest c = pclass →
  (∀ c', c' ∈ l1 → getdest c' ≠ pclass) →
  keeps body a (l1 ++ l2) (attached this (l1 ++ l2)) →
  length (l1 ++ l2) < fuel →
  ∃ st1 st2, disconnect this pclass st = Ok st1 ∧
    emit body fuel this a st1 = Ok (calls_of a l1 ++ calls_of a l2, st2).
Proof.
  intros [Hl Hlive] Hnd Hc Hl1 Hk Hfuel.
  destruct (Hlive c) as [s Hs]; [apply elem_of_app; right; left|]. rewrite Hc in Hs.
  unfold disconnect. rewrite Hl, (disconnect_loop_first pclass l1 c l2) by done.
  unfold signal_disconnect. simpl. rewrite Hs. eexists.
  assert (Hsub : l1 ++ l2 `sublist_of` l1 ++ c :: l2).
  { apply sublist_app; [done|]. by apply sublist_cons. }
  destruct (emit_steady body this a (attached this (l1 ++ l2)) (l1 ++ l2) fuel
              (set_senders pclass (s ∖ {[this]}) (set_slots this (l1 ++ l2) st)))
    as (st2 & He & _); try done.
  - eapply sublist_NoDup; [exact Hnd|]. by apply fmap_sublist.
  - split; [simpl; by rewrite lookup_insert_eq|].
    intros x Hx. simpl.
    destruct (decide (pclass = getdest x)) as [->|Hne].
    + rewrite lookup_insert_eq. eauto.
    + rewrite lookup_insert_ne by done. apply Hlive. by eapply elem_of_sublist.
  - exists st2. split; [done|]. by rewrite He, calls_of_app.
Qed.
End DispatchMore.

(** * A callable that connects during dispatch *)

Section ConnectInside.
Context {Args : Type}.
Variable body : nat → nat → Args → state → result state.
Variable this : nat.
Variable a : Args.

Lemma emit_loop_quiet_segment seg :
  ∀ pre post k calls st,
    m_connected_slots st !! this = Some (pre ++ seg ++ post) →
    NoDup (conn_id <$> (pre ++ seg ++ post)) →
    (∀ c, c ∈ seg → is_Some (m_senders st !! getdest c)) →
    (∀ c, c ∈ seg → body (m_pmemfun c) (m_pobject c) a st = Ok st) →
    emit_loop body (length seg + k) this (begin (seg ++ post)) a calls st
    = emit_loop body k this (begin post) a (calls ++ calls_of a seg) st.
Proof.
  induction seg as [|c seg IH]; intros pre post k calls st Hl Hnd Hlive Hq; simpl.
  - by rewrite app_nil_r.
  - simpl in Hl, Hnd. rewrite Hl, node_at_middle by done. unfold conn_emit.
    destruct (Hlive c) as [s Hs]; [left|]. unfold getdest in Hs. rewrite Hs.
    rewrite Hq by left. simpl.
    rewrite (IH (pre ++ [c]) post k); try (by rewrite <- app_assoc).
    + intros x Hx. apply Hlive. by right.
    + intros x Hx. apply Hq. by right.
Qed.

(** X19. A connection that a callable makes on the signal being emitted is
    appended behind the saved position: it is called in the same [emit],
    after all connections of the old list, unless the callable belongs to the
    last connection of the list; then the walk has already saved [end()] and
    the new connection is first called by the next [emit]. *)
Theorem emit_calls_connection_made_inside pclass pmemfun pre c rest fuel st :
  attached this (pre ++ c :: rest) st →
  NoDup (conn_id <$> (pre ++ c :: rest)) →
  (∀ x, x ∈ pre ++ c :: rest → conn_id x < next_conn st) →
  is_Some (m_senders st !! pclass) →
  (∀ y, body (m_pmemfun c) (m_pobject c) a y = connect this pclass pmemfun y) →
  (∀ x y, x ∈ pre ++ rest → body (m_pmemfun x) (m_pobject x) a y = Ok y) →
  (∀ y, body pmemfun pclass a y = Ok y) →
  length (pre ++ c :: rest) + 1 < fuel →
  ∃ st', emit body fuel this a st
         = Ok (calls_of a (pre ++ c :: rest)
                 ++ match rest with
                    | [] => []
                    | _ :: _ => [(pclass, pmemfun, a)]
                    end, st') ∧
    m_connected_slots st' !! this
      = Some ((pre ++ c :: rest) ++ [Conn (next_conn st) pclass pmemfun]).
Proof.
  intros [Hl Hlive] Hnd Hlt [s Hs] Hc Hq Hnew Hfuel.
  rewrite length_app in Hfuel. simpl in Hfuel.
  unfold emit. rewrite Hl.
  replace fuel with (length pre + S (fuel - length pre - 1)) by lia.
  pose proof (emit_loop_quiet_segment pre [] (c :: rest)
                (S (fuel - length pre - 1)) [] st Hl Hnd) as Hpre.
  simpl in Hpre. rewrite Hpre; clear Hpre.
  2: { intros x Hx. apply Hlive, elem_of_app. by left. }
  2: { intros x Hx. apply Hq, elem_of_app. by left. }
  simpl. rewrite Hl, node_at_middle by done. unfold conn_emit.
  destruct (Hlive c) as [sc Hsc]; [apply elem_of_app; right; left|].
  unfold getdest in Hsc. rewrite Hsc, Hc.
  unfold connect, signal_connect. rewrite Hl. simpl. rewrite Hs. simpl.
  set (new := Conn (next_conn st) pclass pmemfun).
  set (st1 := set_senders _ _ _).
  assert (Hl1 : m_connected_slots st1 !! this
                = Some ((pre ++ [c]) ++ (rest ++ [new]) ++ [])).
  { subst st1. simpl. rewrite lookup_insert_eq, app_nil_r.
    by rewrite <- !app_assoc. }
  assert (Hnd1 : NoDup (conn_id <$> ((pre ++ [c]) ++ (rest ++ [new]) ++ []))).
  { rewrite app_nil_r.
    replace ((pre ++ [c]) ++ rest ++ [new])
      with ((pre ++ c :: rest) ++ rebound pclass (next_conn st) [Conn 0 pclass pmemfun])
      by (by rewrite <- !app_assoc).
    by apply NoDup_with_fresh. }
  assert (Hkeep : ∀ r, is_Some (m_senders st !! r) → is_Some (m_senders st1 !! r)).
  { intros r Hr. subst st1. simpl. destruct (decide (pclass = r)) as [->|Hne].
    - rewrite lookup_insert_eq. eauto.
    - by rewrite lookup_insert_ne. }
  destruct rest as [|x rest].
  - replace (fuel - length pre - 1) with (S (fuel - length pre - 2)) by lia.
    simpl. exists st1. rewrite calls_of_app. simpl. rewrite !app_nil_r.
    split; [done|]. by rewrite lookup_insert_eq.
  - simpl in Hfuel.
    replace (fuel - length pre - 1)
      with (length ((x :: rest) ++ [new]) + S (fuel - length pre - length rest - 4))
      by (rewrite length_app; simpl; lia).
    pose proof (emit_loop_quiet_segment ((x :: rest) ++ [new]) (pre ++ [c]) []
                  (S (fuel - length pre - length rest - 4))
                  ([] ++ calls_of a pre ++ [(m_pobject c, m_pmemfun c, a)]) st1
                  Hl1 Hnd1) as Hrest.
    simpl in Hrest. simpl. rewrite Hrest; clear Hrest.
    + exists st1. split.
      * f_equal. f_equal. rewrite !calls_of_app. simpl.
        by rewrite <- !app_assoc.
      * rewrite Hl1. f_equal. rewrite app_nil_r. by rewrite <- !app_assoc.
    + intros y Hy. apply Hkeep.
      apply elem_of_cons in Hy as [->|Hy]; [apply Hlive; apply elem_of_app; right; right; left|].
      apply elem_of_app in Hy as [Hy|Hy].
      * apply Hlive. apply elem_of_app. right. right. by right.
      * apply list_elem_of_singleton in Hy as ->. simpl. eauto.
    + intros y Hy.
      assert (Hy' : y ∈ (x :: rest) ++ [new]) by done.
      apply elem_of_app in Hy' as [Hy'|Hy'].
      * apply Hq. apply elem_of_app. by right.
      * apply list_elem_of_singleton in Hy' as ->. apply Hnew.
Qed.
End ConnectInside.

(** * Repeated disconnect and round trips *)

Lemma filter_others_all pclass (l : list connection) :
  targeting pclass l = [] → filter (λ c, getdest c ≠ pclass) l = l.
Proof.
  intros Hnil. pose proof (targeting_nil_inv pclass l Hnil) as Hne.
  clear Hnil. induction l as [|x l IH]; [done|].
  rewrite filter_cons_True by (apply Hne; left).
  f_equal. apply IH. intros c Hc. apply Hne. by right.
Qed.

Lemma filter_others_drop pclass (l1 : list connection) c l2 :
  getdest c = pclass →
  filter (λ c, getdest c ≠ pclass) (l1 ++ c :: l2)
  = filter (λ c, getdest c ≠ pclass) (l1 ++ l2).
Proof.
  intros Hc. rewrite !filter_app. f_equal.
  rewrite filter_cons_False; [done|]. intros H. by apply H.
Qed.

Lemma disconnect_times_spec n :
  ∀ this pclass l s st,
    m_connected_slots st !! this = Some l →
    m_senders st !! pclass = Some s →
    length (targeting pclass l) = n →
    ∃ st', disconnect_times n this pclass st = Ok st' ∧
      m_connected_slots st' !! this
        = Some (filter (λ c, getdest c ≠ pclass) l) ∧
      m_senders st' !! pclass = Some (if n is 0 then s else s ∖ {[this]}) ∧
      (∀ e, e ≠ this → m_connected_slots st' !! e = m_connected_slots st !! e) ∧
      (∀ r, r ≠ pclass → m_senders st' !! r = m_senders st !! r).
Proof.
  induction n as [|n IH]; intros this pclass l s st Hl Hs Hlen; simpl.
  - exists st. split; [done|]. apply length_zero_iff_nil in Hlen.
    by rewrite filter_others_all.
  - unfold disconnect. rewrite Hl.
    destruct (disconnect_loop pclass l) as [l'|] eqn:E.
    2: { apply disconnect_loop_None_inv in E. by rewrite E in Hlen. }
    apply disconnect_loop_Some_inv in E as (l1 & c & l2 & -> & -> & Hc & Hl1).
    unfold signal_disconnect. simpl. rewrite Hs. simpl.
    set (st1 := set_senders _ _ _).
    destruct (IH this pclass (l1 ++ l2) (s ∖ {[this]}) st1)
      as (st' & Hrun & Hl' & Hs' & Hlo & Hso).
    { subst st1. simpl. by rewrite lookup_insert_eq. }
    { subst st1. simpl. by rewrite lookup_insert_eq. }
    { rewrite targeting_app, (targeting_none pclass l1) in Hlen |- * by done.
      unfold targeting in *. rewrite filter_cons_True in Hlen by done.
      simpl in *. lia. }
    exists st'. split; [done|]. split; [by rewrite Hl', filter_others_drop|].
    split.
    { rewrite Hs'. f_equal. destruct n; [done|]. set_solver. }
    split.
    + intros e He. rewrite Hlo by done. subst st1. simpl. by rewrite lookup_insert_ne.
    + intros r Hr. rewrite Hso by done. subst st1. simpl. by rewrite lookup_insert_ne.
Qed.

Lemma disconnect_times_partial k :
  ∀ this pclass l s st,
    m_connected_slots st !! this = Some l →
    m_senders st !! pclass = Some s →
    k ≤ length (targeting pclass l) →
    ∃ st' l', disconnect_times k this pclass st = Ok st' ∧
      m_connected_slots st' !! this = Some l' ∧
      targeting pclass l' = drop k (targeting pclass l).
Proof.
  induction k as [|k IH]; intros this pclass l s st Hl Hs Hlen; simpl.
  - by exists st, l.
  - unfold disconnect. rewrite Hl.
    destruct (disconnect_loop pclass l) as [l'|] eqn:E.
    2: { apply disconnect_loop_None_inv in E. rewrite E in Hlen. simpl in Hlen. lia. }
    apply disconnect_loop_Some_inv in E as (l1 & c & l2 & -> & -> & Hc & Hl1).
    unfold signal_disconnect. simpl. rewrite Hs. simpl.
    assert (Ht : targeting pclass (l1 ++ c :: l2) = c :: targeting pclass (l1 ++ l2)).
    { rewrite !targeting_app, (targeting_none pclass l1) by done. simpl.
      unfold targeting. by rewrite filter_cons_True. }
    rewrite Ht in Hlen |- *. simpl in Hlen.
    set (st1 := set_senders _ _ _).
    destruct (IH this pclass (l1 ++ l2) (s ∖ {[this]}) st1) as (st' & l' & Hrun & Hl' & Hd).
    { subst st1. simpl. by rewrite lookup_insert_eq. }
    { subst st1. simpl. by rewrite lookup_insert_eq. }
    { lia. }
    by exists st', l'.
Qed.

(** X22. A receiver connected [n + 1] times to a signal needs [n + 1] calls
    of [disconnect]: after [k] calls, for every [k] up to [n], the list still
    holds the last [n + 1 - k] of its connections; after exactly [n + 1]
    calls the list holds the other connections in their order and none to
    the receiver, and the receiver no longer lists the signal. *)
Theorem disconnect_as_often_as_connected n this pclass l s st :
  m_connected_slots st !! this = Some l →
  m_senders st !! pclass = Some s →
  length (targeting pclass l) = S n →
  (∀ k, k ≤ n →
     ∃ st' l', disconnect_times k this pclass st = Ok st' ∧
       m_connected_slots st' !! this = Some l' ∧
       targeting pclass l' = drop k (targeting pclass l) ∧
       length (targeting pclass l') = S n - k) ∧
  ∃ st', disconnect_times (S n) this pclass st = Ok st' ∧
    m_connected_slots st' !! this = Some (filter (λ c, getdest c ≠ pclass) l) ∧
    m_senders st' !! pclass = Some (s ∖ {[this]}) ∧
    (∀ e, e ≠ this → m_connected_slots st' !! e = m_connected_slots st !! e) ∧
    (∀ r, r ≠ pclass → m_senders st' !! r = m_senders st !! r).
Proof.
  intros Hl Hs Hlen. split.
  - intros k Hk.
    destruct (disconnect_times_partial k this pclass l s st Hl Hs)
      as (st' & l' & Hrun & Hl' & Hd); [lia|].
    exists st', l'. do 3 (split; [done|]).
    rewrite Hd, length_drop. lia.
  - exact (disconnect_times_spec (S n) this pclass l s st Hl Hs Hlen).
Qed.

(** X23. [signal_connect] of a signal that is already listed and
    [signal_disconnect] of a signal that is not listed both return the store
    as it was. *)
Theorem signal_connect_disconnect_idle this sender s st :
  m_senders st !! this = Some s →
  (sender ∈ s → signal_connect this sender st = Ok st) ∧
  (sender ∉ s → signal_disconnect this sender st = Ok st).
Proof.
  intros Hs. unfold signal_connect, signal_disconnect, set_senders. rewrite Hs.
  destruct st as [cs ms n]. simpl in *. split; intros Hin; do 2 f_equal.
  - replace ({[sender]} ∪ s) with s by set_solver. by apply insert_id.
  - replace (s ∖ {[sender]}) with s by set_solver. by apply insert_id.
Qed.

(** X24. Copy-constructing a signal at a new address and destroying the copy
    leaves every list and every [m_senders] set as before the copy; only
    the allocator has moved on by one address per connection. *)
Theorem signal_copy_then_destroy_restores s this l st :
  m_connected_slots st !! s = Some l →
  m_connected_slots st !! this = None →
  (∀ c, c ∈ l → is_Some (m_senders st !! getdest c)) →
  (∀ r ms, m_senders st !! r = Some ms → this ∉ ms) →
  (st1 ← signal_copy s this st; signal_destroy this st1)
  = Ok (State (m_connected_slots st) (m_senders st) (next_conn st + length l)).
Proof.
  intros Hl Hfresh Hlive Hunlisted.
  destruct (signal_copy_spec s this l st Hl Hfresh Hlive)
    as (st1 & -> & Hcs & Hn & Hsend).
  simpl. unfold signal_destroy, disconnect_all.
  rewrite Hcs, lookup_insert_eq.
  destruct (disconnect_all_loop_spec this (cloned (next_conn st) l) st1)
    as (st2 & -> & Hcs2 & Hn2 & Hsend2).
  { intros c Hc. apply cloned_elem in Hc as (c0 & Hc0 & Hobj & _).
    unfold getdest. rewrite Hobj, Hsend.
    destruct (Hlive c0 Hc0) as [ms Hms]. unfold getdest in Hms. rewrite Hms.
    simpl. eauto. }
  simpl. f_equal. f_equal.
  - rewrite Hcs2, Hcs, insert_insert_eq, delete_insert_eq. by apply delete_id.
  - apply map_eq. intros r. rewrite Hsend2, Hsend, cloned_dest.
    destruct (m_senders st !! r) as [ms|] eqn:Hms; simpl; [|done]. f_equal.
    specialize (Hunlisted r ms Hms).
    destruct (decide (r ∈ getdest <$> l)); set_solver.
  - by rewrite Hn2, Hn.
Qed.

(** X25. Copy-constructing a receiver at a new address and destroying the
    copy leaves every list and every [m_senders] set as before the copy;
    only the allocator has moved on. *)
Theorem has_slots_copy_then_destroy_restores fuel hs this s st :
  m_senders st !! hs = Some s →
  m_senders st !! this = None →
  (∀ e, e ∈ s → copy_ready fuel st e) →
  (∀ e l c, e ∈ s → m_connected_slots st !! e = Some l → c ∈ l →
     getdest c ≠ this) →
  ∃ n, (st1 ← has_slots_copy fuel hs this st; has_slots_destroy this st1)
       = Ok (State (m_connected_slots st) (m_senders st) n) ∧
       next_conn st ≤ n.
Proof.
  intros Hhs Hfresh Hready Hnot.
  destruct (has_slots_copy_spec fuel hs this s st Hhs Hfresh Hready)
    as (st1 & -> & Hms & Hin & Hout & Hn).
  simpl.
  destruct (has_slots_destroy_spec this s st1) as (st2 & -> & Hms2 & Hn2 & Hcs2).
  { by rewrite Hms, lookup_insert_eq. }
  { intros e He. destruct (Hin e He) as (l & n & _ & _ & ->). eauto. }
  exists (next_conn st2). split; [|lia]. f_equal.
  destruct st2 as [cs2 ms2 n2]. simpl in *. f_equal.
  - apply map_eq. intros e. rewrite Hcs2.
    destruct (decide (e ∈ s)) as [He|He]; [|by apply Hout].
    destruct (Hin e He) as (l & n & Hl & _ & ->). simpl. rewrite Hl. f_equal.
    rewrite filter_app.
    replace (filter (λ c, getdest c ≠ this) (rebound this n (targeting hs l)))
      with (@nil connection).
    + rewrite app_nil_r. apply filter_others_all, targeting_none.
      intros c Hc. by apply (Hnot e l).
    + symmetry. induction (targeting hs l) as [|x t IH] in n |- *; simpl; [done|].
      rewrite filter_cons_False by (intros H; by apply H). apply IH.
  - rewrite Hms2, Hms, delete_insert_eq. by apply delete_id.
Qed.

(** * The further theorems at concrete programs *)

Lemma symmetric_world_pair : symmetric world_pair.
Proof.
  destruct (connect_symmetric 1 10 0 objects) as (st1 & H1 & S1);
    [by vm_compute; eauto..|apply symmetric_objects|].
  pose proof H1 as H1'. vm_compute in H1'. inversion H1' as [E1].
  destruct (connect_symmetric 1 11 0 st1) as (st2 & H2 & S2);
    [subst st1; by vm_compute; eauto..|done|].
  unfold world_pair. rewrite H1. simpl. by rewrite H2.
Qed.

Lemma symmetric_no_stale st : symmetric st → no_stale_listing st.
Proof. intros [_ Hex] r s e Hs He. by apply (Hex r s e Hs). Qed.

Lemma world_twice_nodup : NoDup (conn_id <$> [Conn 0 10 0; Conn 1 10 0]).
Proof. simpl. repeat (constructor; [set_solver|]). constructor. Qed.

Lemma connect_keeps_relation_witness :
  ∃ st', connect 1 10 0 objects = Ok st' ∧ symmetric st'.
Proof.
  apply connect_keeps_relation.
  - by vm_compute; eauto.
  - by vm_compute; eauto.
  - apply symmetric_objects.
Defined.

Lemma connect_twice_appends_two_witness :
  ∃ st', (st1 ← connect 1 10 0 objects; connect 1 10 0 st1) = Ok st' ∧
         m_connected_slots st' !! 1 = Some [Conn 0 10 0; Conn 1 10 0].
Proof.
  destruct (connect_twice_appends_two 1 10 0 [] ∅ objects) as (st' & H & Hl & _).
  - by vm_compute.
  - by vm_compute.
  - exists st'. by split.
Defined.

Lemma connect_then_disconnect_restores_witness :
  (st1 ← connect 1 10 0 objects; disconnect 1 10 st1)
  = Ok (State (m_connected_slots objects) (m_senders objects) 1).
Proof.
  apply (connect_then_disconnect_restores 1 10 0 [] ∅ objects).
  - by vm_compute.
  - intros c Hc. by apply elem_of_nil in Hc.
  - by vm_compute.
  - set_solver.
Defined.

Lemma disconnect_all_clears_signal_witness :
  ∃ st', disconnect_all 1 world_twice = Ok st' ∧
         m_connected_slots st' !! 1 = Some [].
Proof.
  destruct (disconnect_all_clears_signal quiet 1 world_twice) as (st' & H & _ & Hl & _).
  - apply symmetric_world_twice.
  - by vm_compute; eauto.
  - exists st'. by split.
Defined.

Lemma disconnect_all_twice_witness :
  disconnect_all 1 (ok_state (disconnect_all 1 world_pair))
  = Ok (ok_state (disconnect_all 1 world_pair)).
Proof.
  apply (disconnect_all_twice 1 world_pair). by vm_compute.
Defined.

Lemma signal_destroy_leaves_no_listing_witness :
  ∃ st', signal_destroy 1 world_twice = Ok st' ∧
         m_connected_slots st' !! 1 = None.
Proof.
  destruct (signal_destroy_leaves_no_listing 1 world_twice) as (st' & H & _ & Hl & _).
  - apply symmetric_world_twice.
  - by vm_compute; eauto.
  - exists st'. by split.
Defined.

Lemma has_slots_destroy_leaves_no_connection_witness :
  ∃ st', has_slots_destroy 10 world_twice = Ok st' ∧ m_senders st' !! 10 = None.
Proof.
  destruct (has_slots_destroy_leaves_no_connection 10 world_twice)
    as (st' & H & _ & Hs & _).
  - apply symmetric_world_twice.
  - by vm_compute; eauto.
  - exists st'. by split.
Defined.

Lemma disconnect_keeps_relation_when_single_witness :
  ∃ st', disconnect 1 10 world_pair = Ok st' ∧ symmetric st'.
Proof.
  apply (disconnect_keeps_relation_when_single 1 10 [Conn 0 10 0; Conn 1 11 0]).
  - apply symmetric_world_pair.
  - apply world_pair_list.
  - by vm_compute.
Defined.

Lemma disconnect_keeps_listings_fresh_witness :
  no_stale_listing (ok_state (disconnect 1 10 world_twice)).
Proof.
  apply (disconnect_keeps_listings_fresh 1 10 world_twice).
  - by vm_compute.
  - apply symmetric_no_stale, symmetric_world_twice.
Defined.

Lemma has_slots_destroy_defined_witness :
  ∃ st', has_slots_destroy 10 world_twice = Ok st' ∧ no_stale_listing st'.
Proof.
  apply has_slots_destroy_defined.
  - apply symmetric_no_stale, symmetric_world_twice.
  - by vm_compute; eauto.
Defined.

Lemma signal_copy_keeps_relation_witness :
  ∃ st', signal_copy 1 2 world_twice = Ok st' ∧ symmetric st'.
Proof.
  apply signal_copy_keeps_relation.
  - apply symmetric_world_twice.
  - by vm_compute; eauto.
  - by vm_compute.
Defined.

Lemma has_slots_copy_keeps_relation_witness :
  ∃ st', has_slots_copy 5 10 13 world_pair = Ok st' ∧ symmetric st'.
Proof.
  apply (has_slots_copy_keeps_relation 5 10 13 {[1]}).
  - apply symmetric_world_pair.
  - by vm_compute.
  - by vm_compute.
  - apply world_pair_copy_ready.
Defined.

Lemma has_slots_disconnect_all_detaches_witness :
  ∃ st', has_slots_disconnect_all 10 world_twice = Ok st' ∧
         m_senders st' !! 10 = Some ∅.
Proof.
  destruct (has_slots_disconnect_all_detaches 10 world_twice)
    as (st' & H & _ & Hs & _).
  - apply symmetric_world_twice.
  - by vm_compute; eauto.
  - exists st'. by split.
Defined.

Lemma has_slots_disconnect_all_twice_witness :
  has_slots_disconnect_all 10 (ok_state (has_slots_disconnect_all 10 world_pair))
  = Ok (ok_state (has_slots_disconnect_all 10 world_pair)).
Proof.
  apply (has_slots_disconnect_all_twice 10 world_pair). by vm_compute.
Defined.

Lemma emit_leaves_store_witness :
  emit quiet 3 1 7 world_pair = Ok ([(10, 0, 7); (11, 0, 7)], world_pair).
Proof.
  apply (emit_leaves_store quiet 1 7 [Conn 0 10 0; Conn 1 11 0]).
  - split; [apply world_pair_list|apply world_pair_live].
  - apply world_pair_nodup.
  - done.
  - simpl. lia.
Defined.

Lemma connect_then_emit_calls_last_witness :
  ∃ st1 st2, connect 1 12 0 world_pair = Ok st1 ∧
    emit quiet 4 1 7 st1 = Ok ([(10, 0, 7); (11, 0, 7); (12, 0, 7)], st2).
Proof.
  apply (connect_then_emit_calls_last quiet 1 12 0 7 [Conn 0 10 0; Conn 1 11 0]).
  - split; [apply world_pair_list|apply world_pair_live].
  - apply world_pair_nodup.
  - apply world_pair_allocated.
  - by vm_compute; eauto.
  - quiet_keeps.
  - simpl. lia.
Defined.

Lemma disconnect_then_emit_skips_first_witness :
  ∃ st1 st2, disconnect 1 10 world_twice = Ok st1 ∧
    emit quiet 3 1 7 st1 = Ok ([(10, 0, 7)], st2).
Proof.
  apply (disconnect_then_emit_skips_first quiet 1 10 7 [] (Conn 0 10 0) [Conn 1 10 0]).
  - split; [by vm_compute|]. intros c H. each_of H; vm_compute; eauto.
  - apply world_twice_nodup.
  - reflexivity.
  - intros c Hc. by apply elem_of_nil in Hc.
  - quiet_keeps.
  - simpl. lia.
Defined.

Lemma emit_calls_connection_made_inside_witness :
  ∃ st', emit connects_12 4 1 7 world_self
         = Ok ([(10, 1, 7); (11, 0, 7); (12, 0, 7)], st') ∧
    m_connected_slots st' !! 1 = Some [Conn 0 10 1; Conn 1 11 0; Conn 2 12 0].
Proof.
  apply (emit_calls_connection_made_inside connects_12 1 7 12 0
           [] (Conn 0 10 1) [Conn 1 11 0] 4 world_self).
  - split; [by vm_compute|]. intros c H. each_of H; vm_compute; eauto.
  - simpl. repeat (constructor; [set_solver|]). constructor.
  - intros c H. each_of H; vm_compute; lia.
  - by vm_compute; eauto.
  - done.
  - intros x y H. by each_of H.
  - done.
  - simpl. lia.
Defined.

Lemma slot_duplicate_same_target_never_returns_witness :
  slot_duplicate 1000 1 10 10 world_pair = OutOfFuel.
Proof.
  apply (slot_duplicate_same_target_never_returns 1 10 [Conn 0 10 0; Conn 1 11 0]).
  - apply world_pair_list.
  - apply world_pair_nodup.
  - apply world_pair_allocated.
  - exists (Conn 0 10 0). split; [left|done].
Defined.

Lemma disconnect_as_often_as_connected_witness :
  (∃ st1 l1, disconnect_times 1 1 10 world_twice = Ok st1 ∧
     m_connected_slots st1 !! 1 = Some l1 ∧ length (targeting 10 l1) = 1) ∧
  ∃ st', disconnect_times 2 1 10 world_twice = Ok st' ∧
         m_connected_slots st' !! 1 = Some [].
Proof.
  destruct (disconnect_as_often_as_connected 1 1 10 [Conn 0 10 0; Conn 1 10 0]
              {[1]} world_twice) as (Hpart & st' & H & Hl & _).
  - by vm_compute.
  - by vm_compute.
  - by vm_compute.
  - split.
    + destruct (Hpart 1) as (st1 & l1 & H1 & Hl1 & _ & Hlen); [lia|].
      by exists st1, l1.
    + exists st'. by split.
Defined.

Lemma signal_connect_disconnect_idle_witness :
  signal_connect 10 1 world_pair = Ok world_pair ∧
  signal_disconnect 10 2 world_pair = Ok world_pair.
Proof.
  destruct (signal_connect_disconnect_idle 10 1 {[1]} world_pair) as [Hc _];
    [by vm_compute|].
  destruct (signal_connect_disconnect_idle 10 2 {[1]} world_pair) as [_ Hd];
    [by vm_compute|].
  split; [apply Hc|apply Hd]; set_solver.
Defined.

Lemma signal_copy_then_destroy_restores_witness :
  (st1 ← signal_copy 1 2 world_pair; signal_destroy 2 st1)
  = Ok (State (m_connected_slots world_pair) (m_senders world_pair) 4).
Proof.
  apply (signal_copy_then_destroy_restores 1 2 [Conn 0 10 0; Conn 1 11 0] world_pair).
  - apply world_pair_list.
  - by vm_compute.
  - apply world_pair_live.
  - intros r ms Hms Hin.
    destruct symmetric_world_pair as [_ Hex].
    apply (Hex r ms 2 Hms) in Hin as (l & _ & Hl & _). by vm_compute in Hl.
Defined.

Lemma has_slots_copy_then_destroy_restores_witness :
  ∃ n, (st1 ← has_slots_copy 5 10 13 world_pair; has_slots_destroy 13 st1)
       = Ok (State (m_connected_slots world_pair) (m_senders world_pair) n).
Proof.
  destruct (has_slots_copy_then_destroy_restores 5 10 13 {[1]} world_pair)
    as (n & H & _).
  - by vm_compute.
  - by vm_compute.
  - apply world_pair_copy_ready.
  - intros e l c ->%elem_of_singleton Hl Hc. rewrite world_pair_list in Hl.
    inversion Hl; subst. each_of Hc; by vm_compute.
  - by exists n.
Defined.
